(** * The data-engineering lab: bronze ingestion, features, silver save

    A shallow embedding of the code cells of
    [01_materials/labs/02_data_engineering.ipynb]:

    - cells 11-13: [tech_tickers], the tickers asked for;
    - cell 17: [tech_dt], the long frame obtained from the wide download;
    - cell 20: [get_dir_size];
    - cells 22-26: the csv file and the parquet dataset of the comparison;
    - cells 29-30: the bronze clean-up and the per-ticker, per-year
      ingestion loop ([yr_dd], [yr_path], [ToParquet]);
    - cell 34: [parquet_files] and [dd_px];
    - cells 36-37: [dd_shift] and [dd_rets];
    - cell 43: the silver clean-up and save.

    Prices are IEEE-754 binary64 numbers (pandas [float64], where a null is
    a NaN).  Paths are strings, as the code builds them; the file a path
    names is a node of the directory tree, and the file system is a finite
    map from the nodes of files to their contents.  The calls into pandas,
    dask, glob, shutil and os.path are modelled by the functions of the
    parts [Paths], [Frames], [Files] and [Load] below, each next to the
    documented behaviour it stands for.
    The model comes first, then the predicates and the data of the
    statements, then the properties. *)

From Stdlib Require Import Floats Ascii OrderedTypeEx.
From stdpp Require Import base gmap strings list sorting pretty.

Set Warnings "-clear-no-such-hyp,-register-all".

(** ** Strings: characters of a string *)

(** [has_char c s]: the character [c] occurs in [s]. *)
Fixpoint has_char (c : ascii) (s : string) : bool :=
  match s with
  | EmptyString => false
  | String d s => Ascii.eqb c d || has_char c s
  end.

(** A digit or a minus sign: the characters of the decimal rendering of
    an integer. *)
Definition digit_or_minus (c : ascii) : bool :=
  match Ascii.is_nat c with
  | Some _ => true
  | None => Ascii.eqb c "-"
  end.

Fixpoint all_chars (P : ascii → bool) (s : string) : bool :=
  match s with
  | EmptyString => true
  | String c s => P c && all_chars P s
  end.

(** ** Paths

    [os.path.join] on POSIX, as [posixpath.join] computes it: a component
    that starts with the separator discards everything before it; otherwise
    it is appended, after a separator unless the path so far is empty or
    already ends with one. *)

Definition startswith_sep (b : string) : bool :=
  match b with
  | String c _ => Ascii.eqb c "/"
  | EmptyString => false
  end.

Fixpoint endswith_sep (a : string) : bool :=
  match a with
  | EmptyString => false
  | String c a' =>
      match a' with
      | EmptyString => Ascii.eqb c "/"
      | String _ _ => endswith_sep a'
      end
  end.

Definition join_step (path b : string) : string :=
  if startswith_sep b then b
  else if String.eqb path "" || endswith_sep path then path +:+ b
  else path +:+ "/" +:+ b.

Definition path_join (a : string) (p : list string) : string :=
  foldl join_step a p.

(** Cell 30: [yr_path = os.path.join(PRICE_DATA, ticker, f"{ticker}_{yr}")]. *)
Definition yr_path (PRICE_DATA ticker : string) (yr : Z) : string :=
  path_join PRICE_DATA [ticker; ticker +:+ "_" +:+ pretty yr].

(** dask's [to_parquet] names the file of partition [i] of a frame
    [part.i.parquet] inside the directory it is given. *)
Definition part_name (i : nat) : string := "part." +:+ pretty i +:+ ".parquet".
Definition part_path (dir : string) (i : nat) : string :=
  dir +:+ "/" +:+ part_name i.

(** The separator [join_step] puts after [path]. *)
Definition glue (path : string) : string :=
  if String.eqb path "" || endswith_sep path then "" else "/".

(** *** What a path names

    A path names a node of the directory tree: the names on the way from
    the root directory down to it.  The string is cut at the separators
    ([names]); a relative path starts at the working directory [cwd]; an
    empty name and [.] stay where they are, [..] steps up, and above the
    root directory there is the root directory again.  Two strings name the
    same file when they resolve to the same node.  There are no symbolic
    links, and [..] is resolved as if the directory before it existed. *)

(** [p.split("/")]. *)
Fixpoint names (p : string) : list string :=
  match p with
  | EmptyString => [""]
  | String c p' =>
      if Ascii.eqb c "/" then "" :: names p'
      else match names p' with
           | n :: ns => String c n :: ns
           | [] => [String c ""]
           end
  end.

(** ["/".join(ns)]. *)
Fixpoint join_names (ns : list string) : string :=
  match ns with
  | [] => ""
  | n :: ns' =>
      match ns' with
      | [] => n
      | _ :: _ => n +:+ "/" +:+ join_names ns'
      end
  end.

Definition step (dir : list string) (name : string) : list string :=
  if decide (name = "" ∨ name = ".") then dir
  else if decide (name = "..") then take (length dir - 1) dir
  else dir ++ [name].

Definition resolve (cwd : list string) (p : string) : list string :=
  foldl step (if startswith_sep p then [] else cwd) (names p).

(** A name that is an entry of its directory. *)
Definition real_name (n : string) : Prop := n ≠ "" ∧ n ≠ "." ∧ n ≠ "..".

(** A relative path in canonical form: every name of it is an entry of the
    directory before it.  So it is not empty, neither starts nor ends with
    a separator and has no doubled separator and no [.] or [..] in it. *)
Definition canonical (p : string) : Prop := Forall real_name (names p).

(** The node [node] lies below the directory [dir], at any depth. *)
Fixpoint below (dir node : list string) : bool :=
  match dir, node with
  | [], _ :: _ => true
  | d :: dir', n :: node' => if decide (d = n) then below dir' node' else false
  | _, [] => false
  end.

Definition no_dotdot (ns : list string) : bool :=
  forallb (λ n, negb (String.eqb n "..")) ns.

(** No [..] comes after a name: the path then names the same node whether
    or not the directories on its way exist. *)
Fixpoint dotdot_first (ns : list string) : bool :=
  match ns with
  | [] => true
  | n :: ns' =>
      if decide (n = "" ∨ n = "." ∨ n = "..") then dotdot_first ns'
      else no_dotdot ns'
  end.

(** [glob.has_magic]: one of the characters [*], [?] and [[] occurs. *)
Definition has_magic (s : string) : bool :=
  has_char "*" s || has_char "?" s || has_char "[" s.

(** ** Lists: stable sorting, [unique], grouping *)

(** A stable sort: among elements that compare equal the earlier one
    stays first. *)
Fixpoint insert_sorted {A : Type} (leb : A → A → bool) (x : A) (l : list A)
  : list A :=
  match l with
  | [] => [x]
  | y :: l' => if leb x y then x :: l else y :: insert_sorted leb x l'
  end.

Definition isort {A : Type} (leb : A → A → bool) (l : list A) : list A :=
  foldr (insert_sorted leb) [] l.

(** pandas [Series.unique()]: the distinct values in order of first
    appearance. *)
Fixpoint unique {A : Type} `{EqDecision A} (l : list A) : list A :=
  match l with
  | [] => []
  | x :: l' => x :: filter (λ y, y ≠ x) (unique l')
  end.

(** ** Frames

    A pandas or dask frame is the list of its rows, in row order.  Price
    columns are [float64]; a missing value is a NaN. *)

Record Timestamp := { year : Z; month : Z; day : Z }.

Definition Timestamp_compare (a b : Timestamp) : comparison :=
  match (year a ?= year b)%Z with
  | Eq => match (month a ?= month b)%Z with
          | Eq => (day a ?= day b)%Z
          | c => c
          end
  | c => c
  end.

(** The five price columns yfinance returns for one ticker on one day. *)
Record Quote := {
  qClose : float; qHigh : float; qLow : float; qOpen : float; qVolume : float
}.

(** [tech_raw_dt], the frame [yf.download] returns for a list of tickers: one
    row per date, and under every price a column per ticker of its column
    index.  A ticker without data on a date has NaN in its columns on that
    row.  [w_rows] gives for each date the quotes of the tickers, in the
    order of [w_tickers]. *)
Record WideFrame := {
  w_tickers : list string;
  w_rows : list (Timestamp * list Quote)
}.

(** A frame is well formed when every row has a quote for every ticker. *)
Definition wf_wide (raw : WideFrame) : Prop :=
  Forall (λ r, length r.2 = length (w_tickers raw)) (w_rows raw).

(** A row of [tech_dt]: the index label left by [reset_index], the two
    former index levels and the price columns. *)
Record PxRow := {
  index : nat;
  Date : Timestamp;
  Ticker : string;
  Close : float; High : float; Low : float; Open : float; Volume : float
}.

(** [DataFrame.stack(future_stack=True)] moves the ticker level of the
    columns into the row index.  With [future_stack=True] no row is dropped:
    every date is paired with every ticker, also where all prices are NaN. *)
Definition stack (raw : WideFrame) : list (Timestamp * string * Quote) :=
  r ← w_rows raw;
  (λ tq : string * Quote, (r.1, tq.1, tq.2)) <$> zip (w_tickers raw) r.2.

(** [reset_index()] turns the index levels [Date] and [Ticker] into columns
    and labels the rows 0, 1, 2, ... *)
Definition reset_index (l : list (Timestamp * string * Quote)) : list PxRow :=
  imap (λ i x, {| index := i; Date := x.1.1; Ticker := x.1.2;
                  Close := qClose x.2; High := qHigh x.2; Low := qLow x.2;
                  Open := qOpen x.2; Volume := qVolume x.2 |}) l.

(** [sort_values(['Ticker', 'Date'])]: by ticker, then by date. *)
Definition ticker_date_leb (a b : PxRow) : bool :=
  match String.compare (Ticker a) (Ticker b) with
  | Lt => true
  | Gt => false
  | Eq => match Timestamp_compare (Date a) (Date b) with
          | Gt => false
          | _ => true
          end
  end.

Definition sort_values (l : list PxRow) : list PxRow := isort ticker_date_leb l.

(** Cell 17. *)
Definition tech_dt (tech_raw_dt : WideFrame) : list PxRow :=
  sort_values (reset_index (stack tech_raw_dt)).

(** Cell 30, [ticker_dt.assign(Year = ticker_dt.Date.dt.year)]: the rows as
    stored in the bronze partitions. *)
Record YrRow := { px : PxRow; Year : Z }.

Definition assign_Year (r : PxRow) : YrRow := {| px := r; Year := year (Date r) |}.

(** Cell 30, [ticker_dt]: the rows of one ticker, with their year. *)
Definition ticker_dt (tech_dt : list PxRow) (ticker : string) : list YrRow :=
  assign_Year <$> filter (λ r, Ticker r = ticker) tech_dt.

Definition index_leb (a b : YrRow) : bool := index (px a) <=? index (px b).

(** [dd.from_pandas(df, 2)]: the rows in index order ([sort=True] is the
    default), cut into two partitions, the first with the extra row of an
    odd count.  A frame of one row is a single partition.  The cut is by
    position, as dask cuts a frame whose index labels are distinct. *)
Definition from_pandas_2 (df : list YrRow) : list (list YrRow) :=
  let s := isort index_leb df in
  let k := (length s + 1) / 2 in
  filter (λ c, c ≠ []) [take k s; drop k s].

(** Cell 30, [yr_dd]. *)
Definition yr_dd (ticker_dt : list YrRow) (yr : Z) : list (list YrRow) :=
  from_pandas_2 (filter (λ r, Year r = yr) ticker_dt).

(** ** Files

    The file system is the local POSIX file system, as a finite map from
    the nodes of regular files to their contents; a directory exists through
    the files below it.  A program is the list of the file-system calls it
    performs, in order.  The working directory [cwd] does not change during
    a run. *)

Abbreviation store A := (gmap (list string) A).

Inductive fs_op (A : Type) : Type :=
| Rmtree (root : string)          (* [if os.path.exists(root): shutil.rmtree(root)] *)
| Makedirs (dir : string)         (* [os.makedirs(dir, exist_ok=True)] *)
| WriteFile (p : string) (c : A)  (* one file written by [to_csv] *)
| ToParquet (dir : string) (parts : list A).
                                  (* [frame.to_parquet(dir)], [parts] the
                                     partitions of the dask frame *)
Arguments Rmtree {A} root.
Arguments Makedirs {A} dir.
Arguments WriteFile {A} p c.
Arguments ToParquet {A} dir parts.

(** [root] followed by one separator: the textual prefix of the paths
    [os.path.join] builds from [root]. *)
Definition dir_prefix (root : string) : string := root +:+ glue root.

(** The string [p] goes on from the string [root] and a separator.  This
    compares the two strings as written; which nodes they name is the
    matter of [resolve] and [below]. *)
Definition inside (root p : string) : bool :=
  negb (String.eqb root "") && String.prefix (dir_prefix root) p.

(** [to_parquet] writes one file per partition, [part.i.parquet] for
    partition [i], directly into [dir].  The writes are the tasks of one
    dask graph: they run concurrently, in no fixed order. *)
Definition part_nodes {A} (cwd : list string) (dir : string) (parts : list A)
  : list (list string * A) :=
  imap (λ i c, (resolve cwd (part_path dir i), c)) parts.

Definition part_store {A} (cwd : list string) (dir : string) (parts : list A)
  : store A :=
  list_to_map (part_nodes cwd dir parts).

(** A call that returns.  The empty path names no directory
    ([os.path.exists("")] is false), so cleaning it up does nothing.  The
    test of the clean-up follows the path through the directories that
    exist; for a root in which [..] comes after a name it depends on
    directories that hold no file, which the map does not record: the
    statements about a clean-up are for the other roots ([dotdot_first]). *)
Definition exec_op {A : Type} (cwd : list string) (op : fs_op A) (fs : store A)
  : store A :=
  match op with
  | Rmtree root =>
      if decide (root = "") then fs
      else filter (λ kv : list string * A, below (resolve cwd root) kv.1 = false) fs
  | Makedirs _ => fs
  | WriteFile p c => <[resolve cwd p := c]> fs
  | ToParquet dir parts => part_store cwd dir parts ∪ fs
  end.

(** A run in which every call returns. *)
Definition exec_ops {A : Type} (cwd : list string) (ops : list (fs_op A))
    (fs : store A) : store A :=
  foldl (λ fs op, exec_op cwd op fs) fs ops.

(** What a call that returns does to the node [k]: [Some v] when it leaves
    [v] there whatever was before, [None] when it does not touch [k]. *)
Definition effect_on {A : Type} (cwd k : list string) (op : fs_op A)
  : option (option A) :=
  match op with
  | Rmtree root =>
      if decide (root = "") then None
      else if below (resolve cwd root) k then Some None else None
  | Makedirs _ => None
  | WriteFile q c => if decide (resolve cwd q = k) then Some (Some c) else None
  | ToParquet dir parts => Some <$> part_store cwd dir parts !! k
  end.

Definition lookup_after {A : Type} (cwd : list string) (ops : list (fs_op A))
    (k : list string) (v : option A) : option A :=
  foldl (λ v op, default v (effect_on cwd k op)) v ops.

(** *** Interruptions

    A call that is interrupted has done any part of its work: [rmtree] has
    deleted some of the files below the root, a write has left its file
    untouched or has put a file there, whole or in part, and of the files of
    [to_parquet] any may be untouched and any may be there, whole or in
    part.  [torn cwd fs fs' op]: [fs'] is such a state of the call [op]
    begun in [fs]. *)
Inductive torn {A : Type} (cwd : list string) (fs fs' : store A)
  : fs_op A → Prop :=
| torn_rmtree root :
    (∀ k, fs' !! k = fs !! k ∨
          (root ≠ "" ∧ below (resolve cwd root) k = true ∧ fs' !! k = None)) →
    torn cwd fs fs' (Rmtree root)
| torn_makedirs dir :
    fs' = fs → torn cwd fs fs' (Makedirs dir)
| torn_write p c :
    (∀ k, fs' !! k = fs !! k ∨ (k = resolve cwd p ∧ is_Some (fs' !! k))) →
    torn cwd fs fs' (WriteFile p c)
| torn_to_parquet dir parts :
    (∀ k, fs' !! k = fs !! k ∨
          (is_Some (part_store cwd dir parts !! k) ∧ is_Some (fs' !! k))) →
    torn cwd fs fs' (ToParquet dir parts).

(** [stopped cwd ops fs n fs']: the program [ops], begun in [fs] and
    interrupted after [n] of its calls have returned, has left [fs']. *)
Inductive stopped {A : Type} (cwd : list string)
  : list (fs_op A) → store A → nat → store A → Prop :=
| stopped_between ops fs :
    stopped cwd ops fs 0 fs
| stopped_within op ops fs fs' :
    torn cwd fs fs' op → stopped cwd (op :: ops) fs 0 fs'
| stopped_later op ops fs n fs' :
    stopped cwd ops (exec_op cwd op fs) n fs' →
    stopped cwd (op :: ops) fs (S n) fs'.

(** ** Bronze ingestion (cells 29 and 30) *)

(** [posixpath.dirname]. *)
Fixpoint rfind_head (p : string) : string :=
  match p with
  | EmptyString => ""
  | String c p' =>
      let h := rfind_head p' in
      if negb (String.eqb h "") then String c h
      else if Ascii.eqb c "/" then "/" else ""
  end.

Fixpoint rstrip_sep (s : string) : string :=
  match s with
  | EmptyString => ""
  | String c s' =>
      let r := rstrip_sep s' in
      if String.eqb r "" && Ascii.eqb c "/" then "" else String c r
  end.

Definition dirname (p : string) : string :=
  let head := rfind_head p in
  if negb (String.eqb head "") && negb (all_chars (Ascii.eqb "/") head)
  then rstrip_sep head else head.

(** The body of the inner loop, for one ticker and one year. *)
Definition ingest_year (PRICE_DATA ticker : string) (ticker_dt : list YrRow)
    (yr : Z) : list (fs_op (list YrRow)) :=
  [ Makedirs (dirname (yr_path PRICE_DATA ticker yr));
    ToParquet (yr_path PRICE_DATA ticker yr) (yr_dd ticker_dt yr) ].

(** The body of the outer loop, for one ticker. *)
Definition ingest_ticker (PRICE_DATA : string) (tech_dt : list PxRow)
    (ticker : string) : list (fs_op (list YrRow)) :=
  let ticker_dt := ticker_dt tech_dt ticker in
  yr ← unique (Year <$> ticker_dt); ingest_year PRICE_DATA ticker ticker_dt yr.

(** Cell 30. *)
Definition bronze_loop (PRICE_DATA : string) (tech_dt : list PxRow)
  : list (fs_op (list YrRow)) :=
  ticker ← unique (Ticker <$> tech_dt); ingest_ticker PRICE_DATA tech_dt ticker.

(** Cells 29 and 30: clean-up, then the loop. *)
Definition bronze_ingestion (PRICE_DATA : string) (tech_dt : list PxRow)
  : list (fs_op (list YrRow)) :=
  Rmtree PRICE_DATA :: bronze_loop PRICE_DATA tech_dt.

(** The partitions the loop writes: key, number of the file, rows. *)
Definition bronze_parts (tech_dt : list PxRow)
  : list (string * Z * nat * list YrRow) :=
  ticker ← unique (Ticker <$> tech_dt);
  yr ← unique (Year <$> ticker_dt tech_dt ticker);
  imap (λ i c, (ticker, yr, i, c)) (yr_dd (ticker_dt tech_dt ticker) yr).

(** ** Load (cell 34) *)

(** Every name of the relative path [s] is one the wildcards of [glob]
    match: not empty (no directory listing returns an empty name) and not
    hidden, that is, not starting with a dot.  [at_start] tells whether the
    scan is at the first character of a name. *)
Fixpoint all_visible (at_start : bool) (s : string) : bool :=
  match s with
  | EmptyString => negb at_start
  | String c s' =>
      if Ascii.eqb c "/" then negb at_start && all_visible true s'
      else (if at_start then negb (Ascii.eqb c ".") else true)
           && all_visible false s'
  end.

Fixpoint endswith (suffix s : string) : bool :=
  String.eqb s suffix ||
  match s with
  | EmptyString => false
  | String _ s' => endswith suffix s'
  end.

(** A name the wildcards of [glob] match: not empty, not hidden. *)
Definition visible_name (n : string) : bool :=
  match n with
  | EmptyString => false
  | String c _ => negb (Ascii.eqb c ".")
  end.

(** The directories on the way from the directory [r] down to the file
    [k], [r] itself left out. *)
Definition dirs_between (r k : list string) : list (list string) :=
  (λ j, take j k) <$> seq (S (length r)) (length k - S (length r)).

(** The node [k] below [r] matches [**/*.parquet]: no hidden name on the
    way from [r], and a last name that ends in [.parquet]. *)
Definition glob_match (r k : list string) : bool :=
  forallb visible_name (drop (length r) k)
  && endswith ".parquet" (default "" (last k)).

(** Cell 34, [parquet_files]:
    [glob(os.path.join(PRICE_DATA, "**/*.parquet"), recursive = True)], for a
    root without the special characters of [glob] ([has_magic]), which is
    then taken literally.  The pattern matches the entries below the root,
    files and directories alike; each comes back as the root, a separator
    and the names from the root down to it.  [glob] promises no order. *)
Definition parquet_files {A} (cwd : list string) (PRICE_DATA : string)
    (fs : store A) : list string :=
  let r := resolve cwd PRICE_DATA in
  let files := filter (λ k, below r k = true) (map_to_list fs).*1 in
  let dirs := remove_dups (files ≫= dirs_between r) in
  (λ k, dir_prefix PRICE_DATA +:+ join_names (drop (length r) k))
    <$> filter (λ k, glob_match r k = true) (files ++ dirs).


(** dask reads a list of files in the order of their natural sort key
    ([natural_sort_key]: the runs of digits compared as numbers, the text
    between them as strings). *)
Inductive token := TStr (s : string) | TInt (n : N).

Fixpoint tokens_text (s : string) (acc : string) : list token :=
  match s with
  | EmptyString => [TStr acc]
  | String c s' =>
      match Ascii.is_nat c with
      | Some d => TStr acc :: tokens_digits s' (N.of_nat d)
      | None => tokens_text s' (acc +:+ String c "")
      end
  end
with tokens_digits (s : string) (n : N) : list token :=
  match s with
  | EmptyString => [TInt n; TStr ""]
  | String c s' =>
      match Ascii.is_nat c with
      | Some d => tokens_digits s' (10 * n + N.of_nat d)
      | None => TInt n :: tokens_text s' (String c "")
      end
  end.

Definition natural_sort_key (s : string) : list token := tokens_text s "".

Definition token_compare (a b : token) : comparison :=
  match a, b with
  | TStr x, TStr y => String.compare x y
  | TInt x, TInt y => (x ?= y)%N
  | TStr _, TInt _ => Lt
  | TInt _, TStr _ => Gt
  end.

Fixpoint key_compare (k1 k2 : list token) : comparison :=
  match k1, k2 with
  | [], [] => Eq
  | [], _ :: _ => Lt
  | _ :: _, [] => Gt
  | a :: k1', b :: k2' =>
      match token_compare a b with
      | Eq => key_compare k1' k2'
      | c => c
      end
  end.

Definition natural_leb (p q : string) : bool :=
  match key_compare (natural_sort_key p) (natural_sort_key q) with
  | Gt => false
  | _ => true
  end.

(** [dd.read_parquet(files)]: the rows of the files, file after file.  An
    empty list of files is an error, and so is a path that is not a
    file. *)
Definition read_parquet {A} (cwd : list string) (fs : store (list A))
    (files : list string) : option (list A) :=
  match files with
  | [] => None
  | _ => mjoin <$> mapM (λ p, fs !! resolve cwd p) (isort natural_leb files)
  end.

(** [set_index("Ticker")]: the rows sorted by ticker; rows of one ticker
    keep their order. *)
Definition Ticker_leb (a b : YrRow) : bool :=
  String.leb (Ticker (px a)) (Ticker (px b)).

Definition set_index_Ticker (l : list YrRow) : list YrRow := isort Ticker_leb l.

(** Cell 34, [dd_px]. *)
Definition dd_px (cwd : list string) (PRICE_DATA : string)
    (fs : store (list YrRow)) : option (list YrRow) :=
  set_index_Ticker <$> read_parquet cwd fs (parquet_files cwd PRICE_DATA fs).

(** ** Transform (cells 36 and 37) *)

Record ShiftRow := { yrow : YrRow; Close_lag_1 : float }.
Record RetRow := { srow : ShiftRow; Returns : float }.

(** [Series.shift(1)] on a float column: every value moves one row down, the
    first row gets NaN and the last value is dropped. *)
Definition shift_1 (col : list float) : list float :=
  take (length col) (nan :: col).

(** The function applied to each group:
    [lambda x: x.assign(Close_lag_1 = x['Close'].shift(1))]. *)
Definition assign_Close_lag_1 (x : list YrRow) : list ShiftRow :=
  zip_with (λ r lag, {| yrow := r; Close_lag_1 := lag |})
           x (shift_1 ((λ r, Close (px r)) <$> x)).

(** Cell 36, [dd_shift]: [groupby('Ticker', group_keys=False).apply(...)].
    Each group holds the rows of one ticker in frame order; the groups come
    in the order of the tickers in the frame. *)
Definition dd_shift (dd_px : list YrRow) : list ShiftRow :=
  t ← unique ((λ r, Ticker (px r)) <$> dd_px);
  assign_Close_lag_1 (filter (λ r, Ticker (px r) = t) dd_px).

(** Cell 37, [dd_rets]:
    [Returns = lambda x: x['Close']/x['Close_lag_1'] - 1], in float64. *)
Definition assign_Returns (x : ShiftRow) : RetRow :=
  {| srow := x;
     Returns := (Close (px (yrow x)) / Close_lag_1 x - 1)%float |}.

Definition dd_rets (dd_shift : list ShiftRow) : list RetRow :=
  assign_Returns <$> dd_shift.

(** pandas' [isna]: a float is null when it is a NaN. *)
Definition isna (x : float) : bool := PrimFloat.is_nan x.

(** ** Save (cell 43) *)

(** [if os.path.exists(FEATURES_DATA): shutil.rmtree(FEATURES_DATA)], then
    [dd_rets.to_parquet(FEATURES_DATA, overwrite=True)], which empties the
    directory once more and writes one file per partition of the frame. *)
Definition silver_save (FEATURES_DATA : string) (parts : list (list RetRow))
  : list (fs_op (list RetRow)) :=
  [Rmtree FEATURES_DATA; Rmtree FEATURES_DATA; ToParquet FEATURES_DATA parts].

(** Cells 34 to 43 in one go.  How dask divides [dd_rets] into partitions
    is left to [partitions]. *)
Definition featurize (partitions : list RetRow → list (list RetRow))
    (cwd : list string) (PRICE_DATA FEATURES_DATA : string)
    (bronze : store (list YrRow))
  : option (list (fs_op (list RetRow))) :=
  px ← dd_px cwd PRICE_DATA bronze;
  Some (silver_save FEATURES_DATA (partitions (dd_rets (dd_shift px)))).

(** ** Runs

    A run of the ingestion is cells 14, 17, 29 and 30 in order: one download
    for all tickers over the whole range, the normalisation, the clean-up of
    the bronze root and the loop.  This is the notebook's own version of what
    [dm.download_all()] stands for; the class [DataManager] itself is not part
    of the notebook. *)

Record Request := {
  req_tickers : list string;
  req_start : Timestamp;
  req_end : Timestamp
}.

(** Cell 14:
    [yf.download(tech_tickers, start = "2000-01-01", end = "2025-01-26")]. *)
Definition tech_request (tech_tickers : list string) : Request :=
  {| req_tickers := tech_tickers;
     req_start := {| year := 2000; month := 1; day := 1 |};
     req_end := {| year := 2025; month := 1; day := 26 |} |}.

(** The period that holds the end of the requested range. *)
Definition current_period : Z := year (req_end (tech_request [])).

(** The state a run works on: the requests sent to the provider so far and
    the bronze store. *)
Record World := {
  requests : list Request;
  bronze : store (list YrRow)
}.

(** A run in which every call returns. *)
Definition download_all (yf_download : Request → WideFrame)
    (cwd : list string) (PRICE_DATA : string) (tech_tickers : list string)
    (w : World) : World :=
  let req := tech_request tech_tickers in
  {| requests := requests w ++ [req];
     bronze := exec_ops cwd
                 (bronze_ingestion PRICE_DATA (tech_dt (yf_download req)))
                 (bronze w) |}.

(** *** Exceptions

    No cell has a [try]: an exception raised by a call ends the run there.
    The download raises when the provider gives no frame at all.  A
    file-system call raises when one of the nodes it works on is not
    writable; it then leaves the nodes that are not writable as they were,
    and the others in any state of the interrupted call ([torn]): of the
    files of [to_parquet], those that can be written may have been. *)

Inductive exn := FetchError | OSError (node : list string).

Inductive outcome (S : Type) :=
| Done (s : S)
| Raised (e : exn) (s : S).
Arguments Done {S} s.
Arguments Raised {S} e s.

(** The nodes a call works on. *)
Definition targets {A} (cwd : list string) (op : fs_op A)
  : list (list string) :=
  match op with
  | Rmtree root => if decide (root = "") then [] else [resolve cwd root]
  | Makedirs dir => [resolve cwd dir]
  | WriteFile p _ => [resolve cwd p]
  | ToParquet dir parts => (part_nodes cwd dir parts).*1
  end.

Definition returns {A} (cwd : list string) (writable : list string → bool)
    (op : fs_op A) : bool :=
  forallb writable (targets cwd op).

Definition raises {A} (cwd : list string) (writable : list string → bool)
    (fs : store A) (op : fs_op A) (e : exn) (fs' : store A) : Prop :=
  ∃ k, k ∈ targets cwd op ∧ writable k = false ∧ e = OSError k ∧
       torn cwd fs fs' op ∧
       ∀ k', writable k' = false → fs' !! k' = fs !! k'.

Inductive run_exc {A} (cwd : list string) (writable : list string → bool)
  : list (fs_op A) → store A → outcome (store A) → Prop :=
| run_done fs :
    run_exc cwd writable [] fs (Done fs)
| run_call op ops fs o :
    returns cwd writable op = true →
    run_exc cwd writable ops (exec_op cwd op fs) o →
    run_exc cwd writable (op :: ops) fs o
| run_raise op ops fs e fs' :
    raises cwd writable fs op e fs' →
    run_exc cwd writable (op :: ops) fs (Raised e fs').

Definition download_all_exc (yf_download : Request → option WideFrame)
    (cwd : list string) (writable : list string → bool) (PRICE_DATA : string)
    (tech_tickers : list string) (fs : store (list YrRow))
    (o : outcome (store (list YrRow))) : Prop :=
  match yf_download (tech_request tech_tickers) with
  | None => o = Raised FetchError fs
  | Some tech_raw_dt =>
      run_exc cwd writable (bronze_ingestion PRICE_DATA (tech_dt tech_raw_dt))
              fs o
  end.

(** ** The tickers asked for (cells 9 to 13) *)

(** A row of the frame [tickers] read from the csv file, with the two
    columns the cells use.  A cell left empty in the file is a null. *)
Record TickerRow := { ticker : string; GICS_Sector : option string }.

(** Selection by a boolean mask, [frame[mask]]: the rows where the mask is
    true. *)
Definition select_mask {A : Type} (frame : list A) (mask : list bool) : list A :=
  (filter (λ x : A * bool, x.2 = true) (zip frame mask)).*1.

(** Cell 11.  A comparison with a null is false. *)
Definition idx_tech (tickers : list TickerRow) : list bool :=
  (λ r, bool_decide (GICS_Sector r = Some "Information Technology")) <$> tickers.

Definition tech_sector (tickers : list TickerRow) : list TickerRow :=
  select_mask tickers (idx_tech tickers).

(** Cell 13. *)
Definition tech_tickers (tickers : list TickerRow) : list string :=
  ticker <$> tech_sector tickers.

(** ** Directory sizes (cell 20) *)

(** What [os.scandir] yields for a directory: a regular file with the size
    its [stat] reports, a directory with what [os.scandir] yields for it in
    turn, or an entry that is neither (a socket, a dangling link). *)
Inductive DirEntry :=
| EFile (name : string) (st_size : N)
| EDir (name : string) (it : list DirEntry)
| EOther (name : string).

(** The body of the loop of [get_dir_size], [total += ...]; the inner
    [foldl] is the recursive call on the directory [entry.path]. *)
Fixpoint scan_entry (total : N) (entry : DirEntry) : N :=
  match entry with
  | EFile _ st_size => (total + st_size)%N
  | EDir _ it => (total + foldl scan_entry 0%N it)%N
  | EOther _ => total
  end.

(** [get_dir_size(path)], for the directory whose entries are [it]. *)
Definition get_dir_size (it : list DirEntry) : N := foldl scan_entry 0%N it.

(** ** Storing one frame as csv and as parquet (cells 22 to 26) *)

Definition stock_path (temp : string) : string := path_join temp ["stock_px.csv"].
Definition parquet_path (temp : string) : string :=
  path_join temp ["stock_px.parquet"].

(** What a file of the comparison holds: the records of a csv file, one
    per row with the seven columns in order, or the rows of a parquet
    file. *)
Inductive Stored :=
| CsvFile (records :
    list (Timestamp * string * float * float * float * float * float))
| ParquetFile (rows : list PxRow).

(** [tech_dt.to_csv(stock_path, index = False)]: the columns of every row,
    without its index label. *)
Definition to_csv (tech_dt : list PxRow) : Stored :=
  CsvFile ((λ r, (Date r, Ticker r, Close r, High r, Low r, Open r, Volume r))
             <$> tech_dt).

(** Cells 22, 23 and 26 in one go.  How [dd.from_pandas] divides the frame
    for a given number of partitions is left to [from_pandas]. *)
Definition store_twice (from_pandas : list PxRow → nat → list (list PxRow))
    (temp : string) (tech_dt : list PxRow) (tech_tickers : list string)
  : list (fs_op Stored) :=
  Makedirs temp
    :: WriteFile (stock_path temp) (to_csv tech_dt)
    :: [ToParquet (parquet_path temp)
          (ParquetFile <$> from_pandas tech_dt (length tech_tickers))].

(** ** Predicates used in the statements *)

(** A program replaces the files below [dir] atomically when, wherever it
    is interrupted, a reader finds below [dir] either all that was there
    before or all that is there at the end. *)
Definition atomic_replace {A} (cwd : list string) (dir : string)
    (ops : list (fs_op A)) (fs : store A) : Prop :=
  ∀ n fs', stopped cwd ops fs n fs' →
    (∀ k, below (resolve cwd dir) k = true → fs' !! k = fs !! k) ∨
    (∀ k, below (resolve cwd dir) k = true →
          fs' !! k = exec_ops cwd ops fs !! k).

(** The quote a row of [tech_dt] carries. *)
Definition row_quote (r : PxRow) : Quote :=
  {| qClose := Close r; qHigh := High r; qLow := Low r; qOpen := Open r;
     qVolume := Volume r |}.

(** A symbol that is a relative path of visible names: not empty, no empty
    or hidden name in it, so neither a leading nor a trailing separator. *)
Definition plain_symbol (t : string) : Prop := all_visible true t = true.

(** None of the names of the symbol ends in [.parquet]: its directories are
    not taken for parquet files. *)
Definition no_parquet_name (t : string) : Prop :=
  Forall (λ n, endswith ".parquet" n = false) (names t).

(** The file of a partition written by the loop. *)
Definition part_file (root : string) (x : string * Z * nat * list YrRow)
  : string :=
  part_path (yr_path root x.1.1.1 x.1.1.2) x.1.2.

(** The same file from the root, for a symbol in canonical form, and the
    node it is. *)
Definition part_rel (x : string * Z * nat * list YrRow) : string :=
  x.1.1.1 +:+ "/" +:+ x.1.1.1 +:+ "_" +:+ pretty x.1.1.2
    +:+ "/" +:+ part_name x.1.2.

Definition part_node (cwd : list string) (root : string)
    (x : string * Z * nat * list YrRow) : list string :=
  resolve cwd (part_file root x).

(** [a] is not later than [b]. *)
Definition date_leb (a b : Timestamp) : bool :=
  match Timestamp_compare a b with
  | Gt => false
  | _ => true
  end.

(** Within each symbol, the rows with the larger index labels have the
    later dates: so it is in [tech_dt] when the dates of the response
    ascend. *)
Definition index_follows_dates (tech_dt : list PxRow) : Prop :=
  ∀ a b, a ∈ tech_dt → b ∈ tech_dt → Ticker a = Ticker b →
         index a ≤ index b → date_leb (Date a) (Date b) = true.

(** The dates of the response ascend. *)
Definition dates_ascend (raw : WideFrame) : Prop :=
  StronglySorted (λ r r' : Timestamp * list Quote, date_leb r.1 r'.1 = true)
                 (w_rows raw).

(** The sizes of the regular files below a directory, at any depth. *)
Fixpoint entry_files (entry : DirEntry) : list N :=
  match entry with
  | EFile _ st_size => [st_size]
  | EDir _ it => it ≫= entry_files
  | EOther _ => []
  end.

Definition files_below (it : list DirEntry) : list N := it ≫= entry_files.

(** Two listings of one directory tree: the same entries, in any order, at
    every level. *)
Inductive same_tree : list DirEntry → list DirEntry → Prop :=
| same_tree_nil : same_tree [] []
| same_tree_skip e l l' : same_tree l l' → same_tree (e :: l) (e :: l')
| same_tree_dir name it it' l l' :
    same_tree it it' → same_tree l l' →
    same_tree (EDir name it :: l) (EDir name it' :: l')
| same_tree_swap e e' l : same_tree (e :: e' :: l) (e' :: e :: l)
| same_tree_trans l1 l2 l3 : same_tree l1 l2 → same_tree l2 l3 → same_tree l1 l3.

(** The paths of the files a program writes, call after call. *)
Definition written_paths {A} (ops : list (fs_op A)) : list string :=
  op ← ops;
  match op with
  | WriteFile p _ => [p]
  | ToParquet dir parts => part_path dir <$> seq 0 (length parts)
  | _ => []
  end.

(** ** Synthetic data for the examples *)

Definition on_day (y m d : Z) : Timestamp := {| year := y; month := m; day := d |}.

(** A row whose prices all equal [c]. *)
Definition synthetic_row (i : nat) (t : string) (date : Timestamp) (c : float)
  : PxRow :=
  {| index := i; Date := date; Ticker := t;
     Close := c; High := c; Low := c; Open := c; Volume := 1000 |}.

Definition synthetic_quote (c : float) : Quote :=
  {| qClose := c; qHigh := c; qLow := c; qOpen := c; qVolume := 1000 |}.

Definition no_quote : Quote :=
  {| qClose := nan; qHigh := nan; qLow := nan; qOpen := nan; qVolume := nan |}.

(** The symbol [SYN] with closes 10, 20, 30 on three consecutive days. *)
Definition synthetic_dt : list PxRow :=
  [ synthetic_row 0 "SYN" (on_day 2024 1 2) 10;
    synthetic_row 1 "SYN" (on_day 2024 1 3) 20;
    synthetic_row 2 "SYN" (on_day 2024 1 4) 30 ].

(** The provider of the example: [SYN] closed at 10 on the last day of 2024
    and at 20 on the second day of 2025. *)
Definition synthetic_provider (req : Request) : WideFrame :=
  {| w_tickers := ["SYN"];
     w_rows := [ (on_day 2024 12 31, [synthetic_quote 10]);
                 (on_day 2025 1 2, [synthetic_quote 20]) ] |}.

(** Five tickers asked for, of which the provider does not know [ZZZZ]. *)
Definition raw_with_unknown : WideFrame :=
  {| w_tickers := ["AAA"; "BBB"; "CCC"; "DDD"; "ZZZZ"];
     w_rows :=
       [ (on_day 2024 1 2,
          [synthetic_quote 10; synthetic_quote 20; synthetic_quote 30;
           synthetic_quote 40; no_quote]);
         (on_day 2024 1 3,
          [synthetic_quote 11; synthetic_quote 21; synthetic_quote 31;
           synthetic_quote 41; no_quote]) ] |}.

(** Two tickers with data on one day. *)
Definition raw_two_tickers : WideFrame :=
  {| w_tickers := ["AAA"; "BBB"];
     w_rows := [ (on_day 2024 1 2, [synthetic_quote 10; synthetic_quote 20]) ] |}.

(** [SYN] with closes 30, 20, 10 on three consecutive days, the latest day
    first. *)
Definition raw_descending : WideFrame :=
  {| w_tickers := ["SYN"];
     w_rows := [ (on_day 2024 1 4, [synthetic_quote 30]);
                 (on_day 2024 1 3, [synthetic_quote 20]);
                 (on_day 2024 1 2, [synthetic_quote 10]) ] |}.

(** * Properties *)

(** ** Facts: strings *)

Section Strings.

Lemma app_nil_l_s (s : string) : "" +:+ s = s.
Proof. reflexivity. Qed.

Lemma app_cons_s c (a b : string) : String c a +:+ b = String c (a +:+ b).
Proof. reflexivity. Qed.

Lemma app_nil_r_s (s : string) : s +:+ "" = s.
Proof.
  induction s as [|c s IH]; [done|]. by rewrite app_cons_s, IH.
Qed.

Lemma app_assoc_s (a b c : string) : (a +:+ b) +:+ c = a +:+ (b +:+ c).
Proof.
  induction a as [|x a IH]; [done|]. by rewrite !app_cons_s, IH.
Qed.

Lemma length_app_s (a b : string) :
  String.length (a +:+ b) = String.length a + String.length b.
Proof.
  induction a as [|x a IH]; [done|]. rewrite app_cons_s. simpl. by rewrite IH.
Qed.

(** Two decompositions of one string with left parts of the same length
    are the same decomposition. *)
Lemma app_inj_length (a b x y : string) :
  String.length a = String.length b → a +:+ x = b +:+ y → a = b ∧ x = y.
Proof.
  revert b; induction a as [|c a IH]; intros [|d b] Hlen Heq;
    rewrite ?app_cons_s, ?app_nil_l_s in Heq; simplify_eq/=; [done|].
  destruct (IH b) as [-> ->]; done.
Qed.

Lemma has_char_app c a b :
  has_char c (a +:+ b) = has_char c a || has_char c b.
Proof.
  induction a as [|d a IH]; [done|].
  rewrite app_cons_s. simpl. by rewrite IH, orb_assoc.
Qed.

(** A string is cut in one way only at its last occurrence of [c]. *)
Lemma split_last_char c (a b d1 d2 : string) :
  has_char c d1 = false → has_char c d2 = false →
  a +:+ String c d1 = b +:+ String c d2 → a = b ∧ d1 = d2.
Proof.
  intros H1 H2. revert b; induction a as [|x a IH]; intros [|y b] Heq;
    rewrite ?app_cons_s, ?app_nil_l_s in Heq; simplify_eq/=.
  - done.
  - rewrite has_char_app in H1. simpl in H1.
    rewrite Ascii.eqb_refl, orb_true_r in H1. done.
  - rewrite has_char_app in H2. simpl in H2.
    rewrite Ascii.eqb_refl, orb_true_r in H2. done.
  - destruct (IH b) as [-> ->]; done.
Qed.

Lemma prefix_app_s (a b : string) : String.prefix a (a +:+ b) = true.
Proof.
  induction a as [|c a IH]; [by destruct b|].
  rewrite app_cons_s. simpl. destruct (ascii_dec c c); done.
Qed.

Lemma prefix_inv_s (a p : string) :
  String.prefix a p = true → ∃ r, p = a +:+ r.
Proof.
  revert p; induction a as [|c a IH]; intros p H.
  - by exists p.
  - destruct p as [|d p]; simpl in H; [done|].
    destruct (ascii_dec c d) as [->|]; [|done].
    destruct (IH p H) as [r ->]. exists r. by rewrite app_cons_s.
Qed.

Lemma all_chars_app P a b :
  all_chars P (a +:+ b) = all_chars P a && all_chars P b.
Proof.
  induction a as [|c a IH]; [done|].
  rewrite app_cons_s. simpl. by rewrite IH, andb_assoc.
Qed.

Lemma all_chars_has_char P c s :
  all_chars P s = true → P c = false → has_char c s = false.
Proof.
  intros Hs Hc. induction s as [|d s IH]; simpl in *; [done|].
  apply andb_true_iff in Hs as [Hd Hs]. rewrite (IH Hs), orb_false_r.
  destruct (Ascii.eqb_spec c d) as [->|]; [congruence | done].
Qed.

Lemma pretty_N_char_digit x : digit_or_minus (pretty_N_char x) = true.
Proof. unfold pretty_N_char. by repeat case_match. Qed.

Lemma pretty_N_go_digits x s :
  all_chars digit_or_minus s = true →
  all_chars digit_or_minus (pretty_N_go x s) = true.
Proof.
  revert s. induction (N.lt_wf_0 x) as [x _ IH]; intros s Hs.
  destruct (decide (x = 0)%N) as [->|].
  - by rewrite pretty_N_go_0.
  - rewrite pretty_N_go_step by lia. apply IH.
    + apply N.div_lt; lia.
    + simpl. by rewrite pretty_N_char_digit.
Qed.

Lemma pretty_N_digits (x : N) : all_chars digit_or_minus (pretty x) = true.
Proof.
  unfold pretty, pretty_N. case_decide; [done|].
  by apply pretty_N_go_digits.
Qed.

Lemma pretty_Z_digits (z : Z) : all_chars digit_or_minus (pretty z) = true.
Proof.
  destruct z as [|p|p]; [done|apply (pretty_N_digits (Npos p))|].
  unfold pretty, pretty_Z. simpl. apply (pretty_N_digits (Npos p)).
Qed.

Lemma pretty_nat_digits (n : nat) : all_chars digit_or_minus (pretty n) = true.
Proof. apply pretty_N_digits. Qed.

End Strings.

(** ** Facts: paths *)

Section Paths.

Lemma join_step_rel path b :
  startswith_sep b = false → join_step path b = path +:+ glue path +:+ b.
Proof.
  intros Hb. unfold join_step, glue. rewrite Hb.
  destruct (String.eqb path "" || endswith_sep path); done.
Qed.

Lemma startswith_sep_app t s :
  startswith_sep t = false → startswith_sep (t +:+ String "_" s) = false.
Proof. by destruct t. Qed.

(** The location of a key whose ticker does not start with the separator. *)
Lemma yr_path_rel root t y :
  startswith_sep t = false →
  yr_path root t y =
    ((root +:+ glue root) +:+
     (t +:+ glue (root +:+ glue root +:+ t) +:+ t)) +:+ String "_" (pretty y).
Proof.
  intros Ht. unfold yr_path, path_join. simpl.
  rewrite (join_step_rel root t Ht).
  rewrite join_step_rel by (by apply startswith_sep_app).
  by rewrite !app_assoc_s.
Qed.

Lemma glue_length path : String.length (glue path) ≤ 1.
Proof. unfold glue. case_match; simpl; lia. Qed.

Lemma no_underscore_year (y : Z) : has_char "_" (pretty y) = false.
Proof. eapply all_chars_has_char; [apply pretty_Z_digits | done]. Qed.

Lemma doubled_inj (t1 t2 m1 m2 : string) :
  String.length m1 ≤ 1 → String.length m2 ≤ 1 →
  t1 +:+ m1 +:+ t1 = t2 +:+ m2 +:+ t2 → t1 = t2.
Proof.
  intros H1 H2 Heq.
  assert (String.length t1 = String.length t2) as Hlen.
  { apply (f_equal String.length) in Heq.
    rewrite !length_app_s in Heq. lia. }
  by destruct (app_inj_length _ _ _ _ Hlen Heq).
Qed.

Lemma yr_path_inj_rel root t1 y1 t2 y2 :
  startswith_sep t1 = false → startswith_sep t2 = false →
  yr_path root t1 y1 = yr_path root t2 y2 → t1 = t2 ∧ y1 = y2.
Proof.
  intros Ht1 Ht2. rewrite !yr_path_rel by done. intros Heq.
  apply split_last_char in Heq as [Heq Hy]; [|apply no_underscore_year..].
  apply (inj _) in Hy. split; [|done].
  apply (inj _) in Heq.
  eapply doubled_inj; [..|exact Heq]; apply glue_length.
Qed.

Lemma no_sep_part_name i : has_char "/" (part_name i) = false.
Proof.
  unfold part_name. rewrite !has_char_app.
  rewrite (all_chars_has_char digit_or_minus "/" (pretty i));
    [done | apply pretty_nat_digits | done].
Qed.

Lemma app_inj_r_s (a b s : string) : a +:+ s = b +:+ s → a = b.
Proof.
  intros Heq. apply app_inj_length in Heq as [? _]; [done|].
  apply (f_equal String.length) in Heq. rewrite !length_app_s in Heq. lia.
Qed.

Lemma part_name_inj i j : part_name i = part_name j → i = j.
Proof.
  unfold part_name. intros Heq. apply (inj _) in Heq.
  apply app_inj_r_s in Heq. by apply (inj _) in Heq.
Qed.

Lemma part_path_inj d1 i1 d2 i2 :
  part_path d1 i1 = part_path d2 i2 → d1 = d2 ∧ i1 = i2.
Proof.
  unfold part_path. intros Heq.
  change ("/" +:+ part_name i1) with (String "/" (part_name i1)) in Heq.
  change ("/" +:+ part_name i2) with (String "/" (part_name i2)) in Heq.
  apply split_last_char in Heq as [-> Hn]; [|apply no_sep_part_name..].
  split; [done|]. by apply part_name_inj.
Qed.

End Paths.

Example yr_path_AAPL : yr_path "../data/prices" "AAPL" 2020 = "../data/prices/AAPL/AAPL_2020".
Proof. reflexivity. Qed.

(** ** Facts: lists, stable sorting, [unique], grouping *)

Section Sorting.
Context {A : Type} (leb : A → A → bool).

Lemma insert_sorted_perm x l : insert_sorted leb x l ≡ₚ x :: l.
Proof.
  induction l as [|y l IH]; simpl; [done|].
  destruct (leb x y); [done|]. by rewrite IH, Permutation_swap.
Qed.

Lemma isort_perm l : isort leb l ≡ₚ l.
Proof.
  induction l as [|x l IH]; simpl; [done|].
  by rewrite insert_sorted_perm, IH.
Qed.

Lemma length_isort l : length (isort leb l) = length l.
Proof. by rewrite isort_perm. Qed.

Lemma elem_of_isort x l : x ∈ isort leb l ↔ x ∈ l.
Proof. by rewrite isort_perm. Qed.

Hypothesis leb_total : ∀ x y, leb x y = true ∨ leb y x = true.

Lemma insert_sorted_sorted x l :
  Sorted (λ a b, leb a b = true) l →
  Sorted (λ a b, leb a b = true) (insert_sorted leb x l).
Proof.
  induction 1 as [|y l Hs IH Hhd]; simpl; [by repeat constructor|].
  destruct (leb x y) eqn:Hxy.
  - by repeat constructor.
  - constructor; [done|].
    destruct Hhd as [|z l Hyz]; simpl.
    + constructor. by destruct (leb_total x y) as [?|?]; [congruence|].
    + destruct (leb x z); constructor; [|done].
      by destruct (leb_total x y) as [?|?]; [congruence|].
Qed.

Lemma isort_sorted l : Sorted (λ a b, leb a b = true) (isort leb l).
Proof.
  induction l as [|x l IH]; simpl; [constructor|].
  by apply insert_sorted_sorted.
Qed.

End Sorting.

Section Unique.
Context {A : Type} `{EqDecision A}.

Lemma elem_of_unique (x : A) (l : list A) : x ∈ unique l ↔ x ∈ l.
Proof.
  induction l as [|y l IH]; simpl; [done|].
  rewrite !elem_of_cons, list_elem_of_filter, IH.
  destruct (decide (x = y)); tauto.
Qed.

Lemma NoDup_unique (l : list A) : NoDup (unique l).
Proof.
  induction l as [|y l IH]; simpl; [constructor|].
  constructor; [|by apply NoDup_filter].
  rewrite list_elem_of_filter. tauto.
Qed.

Lemma bind_ext_in {B C : Type} (f g : B → list C) (l : list B) :
  (∀ x, x ∈ l → f x = g x) → l ≫= f = l ≫= g.
Proof.
  induction l as [|x l IH]; intros Hfg; simpl; [done|].
  rewrite (Hfg x) by set_solver. f_equal. apply IH. set_solver.
Qed.

(** Splitting a frame by the distinct values of a column and putting the
    groups together again loses and duplicates nothing. *)
Lemma group_by_perm {B : Type} (key : B → A) (l : list B) (ks : list A) :
  NoDup ks → (∀ x, x ∈ l → key x ∈ ks) →
  (k ← ks; filter (λ x, key x = k) l) ≡ₚ l.
Proof.
  revert l. induction ks as [|k ks IH]; intros l Hnd Hin; simpl.
  - destruct l as [|x l]; [done|]. specialize (Hin x). set_solver.
  - apply NoDup_cons in Hnd as [Hk Hnd].
    etrans; [|apply (filter_app_complement (λ x, key x = k) l)].
    apply Permutation_app; [done|].
    etrans; [|apply (IH (filter (λ x, ¬ key x = k) l) Hnd)].
    + erewrite bind_ext_in; [done|]. intros k' Hk'. simpl.
      rewrite list_filter_filter. apply list_filter_iff.
      intros x. split; [|naive_solver].
      intros ->. split; [done|]. intros ->. done.
    + intros x [? ?]%list_elem_of_filter. specialize (Hin x). set_solver.
Qed.

End Unique.

Lemma join_from_pandas_2 df : mjoin (from_pandas_2 df) ≡ₚ df.
Proof.
  unfold from_pandas_2.
  set (s := isort index_leb df). set (k := (length s + 1) / 2).
  assert (mjoin (filter (λ c : list YrRow, c ≠ []) [take k s; drop k s]) = s)
    as ->; [|apply isort_perm].
  rewrite <- (take_drop k s) at 3.
  rewrite !filter_cons, filter_nil.
  repeat case_decide; simpl; rewrite ?app_nil_r; try done.
  - destruct (drop k s); [by rewrite app_nil_r | by exfalso; auto].
  - destruct (take k s); [done | by exfalso; auto].
  - destruct (take k s), (drop k s); try done; by exfalso; auto.
Qed.

Lemma elem_of_from_pandas_2 df c r : c ∈ from_pandas_2 df → r ∈ c → r ∈ df.
Proof.
  intros Hc Hr. rewrite <- (join_from_pandas_2 df).
  apply list_elem_of_join. eauto.
Qed.

(** ** Facts: what a path names *)

Lemma names_not_nil (s : string) : names s ≠ [].
Proof.
  destruct s as [|c s]; [done|]. cbn [names].
  destruct (Ascii.eqb c "/"); [done|]. by destruct (names s).
Qed.

(** The names of two paths put together with a separator. *)
Lemma names_app_sep (a b : string) :
  names (a +:+ String "/" b) = names a ++ names b.
Proof.
  induction a as [|c a IH]; [by rewrite app_nil_l_s|].
  rewrite app_cons_s. cbn [names]. rewrite IH.
  destruct (Ascii.eqb c "/"); [done|].
  destruct (names a) as [|n ns] eqn:E; [by apply names_not_nil in E|]. done.
Qed.

Lemma names_nosep (s : string) : has_char "/" s = false → names s = [s].
Proof.
  induction s as [|c s IH]; [done|]. cbn [has_char names].
  intros [Hc Hs]%orb_false_iff. rewrite Ascii.eqb_sym, Hc. by rewrite IH.
Qed.

(** A suffix without separators goes on with the last name. *)
Lemma names_app_nosep (t s : string) :
  has_char "/" s = false →
  ∃ ns n, names t = ns ++ [n] ∧ names (t +:+ s) = ns ++ [n +:+ s].
Proof.
  intros Hs. induction t as [|c t (ns & n & Ht & IH)].
  - exists [], "". split; [done|]. rewrite !app_nil_l_s.
    by rewrite names_nosep.
  - rewrite app_cons_s. cbn [names]. rewrite IH, Ht.
    destruct (Ascii.eqb c "/").
    + exists ("" :: ns), n. done.
    + destruct ns as [|n' ns]; simpl.
      * exists [], (String c n). by rewrite app_cons_s.
      * exists (String c n' :: ns), n. done.
Qed.

Lemma join_names_cons (n : string) (ns : list string) :
  ns ≠ [] → join_names (n :: ns) = n +:+ String "/" (join_names ns).
Proof. destruct ns; [done|]. intros _. done. Qed.

Lemma join_names_names (s : string) : join_names (names s) = s.
Proof.
  induction s as [|c s IH]; [done|]. cbn [names].
  destruct (Ascii.eqb_spec c "/") as [->|Hc].
  - rewrite join_names_cons by apply names_not_nil.
    by rewrite IH, app_nil_l_s.
  - destruct (names s) as [|n ns] eqn:E; [by apply names_not_nil in E|].
    destruct ns as [|n' ns].
    + simpl in *. by subst.
    + rewrite join_names_cons in IH by done.
      rewrite join_names_cons by done. rewrite <- IH. by rewrite app_cons_s.
Qed.

Lemma names_inj (s1 s2 : string) : names s1 = names s2 → s1 = s2.
Proof.
  intros H. by rewrite <- (join_names_names s1), H, join_names_names.
Qed.

Lemma step_real (dir : list string) (n : string) :
  real_name n → step dir n = dir ++ [n].
Proof.
  intros (H1 & H2 & H3). unfold step.
  rewrite decide_False by (intros [?|?]; done).
  by rewrite decide_False.
Qed.

Lemma foldl_step_real (dir ns : list string) :
  Forall real_name ns → foldl step dir ns = dir ++ ns.
Proof.
  intros H. revert dir. induction H as [|n ns Hn _ IH]; intros dir.
  - by rewrite app_nil_r.
  - cbn [foldl]. rewrite IH, step_real by done. by rewrite <- app_assoc.
Qed.

Lemma below_app (dir rel : list string) :
  rel ≠ [] → below dir (dir ++ rel) = true.
Proof.
  intros Hrel. induction dir as [|d dir IH]; simpl.
  - by destruct rel.
  - by rewrite decide_True.
Qed.

Lemma below_inv (dir k : list string) :
  below dir k = true → ∃ n rel, k = dir ++ n :: rel.
Proof.
  revert k. induction dir as [|d dir IH]; intros [|n k]; simpl; try done.
  - eauto.
  - case_decide; [|done]. subst. intros (n' & rel & ->)%IH. eauto.
Qed.

(** ** Canonical relative paths *)

Lemma canonical_rel (t : string) : canonical t → startswith_sep t = false.
Proof.
  destruct t as [|c t]; [done|]. unfold canonical. cbn [startswith_sep names].
  destruct (Ascii.eqb c "/"); [|done].
  intros [[H _] _]%Forall_cons. done.
Qed.

Lemma canonical_not_empty (t : string) : canonical t → t ≠ "".
Proof. intros H ->. apply Forall_cons in H as [[H _] _]. done. Qed.

Lemma endswith_sep_names (t : string) :
  endswith_sep t = true → ∃ ns, names t = ns ++ [""].
Proof.
  induction t as [|c t IH]; [done|]. cbn [endswith_sep].
  destruct t as [|d t].
  - intros ->%Ascii.eqb_eq. by exists [""].
  - intros (ns & Hns)%IH.
    change (names (String c (String d t)))
      with (if Ascii.eqb c "/" then "" :: names (String d t)
            else match names (String d t) with
                 | n :: ns => String c n :: ns
                 | [] => [String c ""]
                 end).
    rewrite Hns. destruct (Ascii.eqb c "/").
    + by exists (EmptyString :: ns).
    + destruct ns as [|n ns]; simpl.
      * by apply (names_inj _ "") in Hns.
      * by exists (String c n :: ns).
Qed.

Lemma canonical_not_endswith_sep (t : string) :
  canonical t → endswith_sep t = false.
Proof.
  intros H. destruct (endswith_sep t) eqn:E; [|done].
  apply endswith_sep_names in E as [ns E]. unfold canonical in H.
  rewrite E in H. apply Forall_app in H as [_ [[H _] _]%Forall_cons]. done.
Qed.

Lemma canonical_app_sep (a b : string) :
  canonical a → canonical b → canonical (a +:+ String "/" b).
Proof.
  unfold canonical. intros Ha Hb. rewrite names_app_sep.
  by apply Forall_app.
Qed.

Lemma real_name_app (n s : string) (c : ascii) :
  c ≠ "."%char → has_char c s = true → real_name (n +:+ s).
Proof.
  intros Hc Hs.
  assert (has_char c (n +:+ s) = true) as H
    by (rewrite has_char_app, Hs; apply orb_true_r).
  repeat split; intros E; rewrite E in H; cbn [has_char] in H.
  - done.
  - rewrite orb_false_r in H. by apply Ascii.eqb_eq in H.
  - rewrite orb_false_r, orb_diag in H. by apply Ascii.eqb_eq in H.
Qed.

Lemma canonical_app_nosep (t s : string) (c : ascii) :
  canonical t → has_char "/" s = false → c ≠ "."%char → has_char c s = true →
  canonical (t +:+ s).
Proof.
  unfold canonical. intros Ht Hs Hc Hcs.
  destruct (names_app_nosep t s Hs) as (ns & n & E1 & E2).
  rewrite E1 in Ht. rewrite E2. apply Forall_app in Ht as [Hns _].
  apply Forall_app. split; [done|]. apply Forall_singleton.
  by eapply real_name_app.
Qed.

Lemma canonical_nosep (s : string) :
  has_char "/" s = false → real_name s → canonical s.
Proof.
  intros Hs Hr. unfold canonical. rewrite names_nosep by done.
  by apply Forall_singleton.
Qed.

(** ** Facts: resolving the paths of the partitions *)

Lemma app_eq_empty (x t : string) : x +:+ t = "" → t = "".
Proof. by destruct x. Qed.

Lemma endswith_sep_app (x t : string) :
  t ≠ "" → endswith_sep (x +:+ t) = endswith_sep t.
Proof.
  intros Ht. induction x as [|c x IH]; [done|].
  rewrite app_cons_s. cbn [endswith_sep]. destruct (x +:+ t) eqn:E; [|done].
  by apply app_eq_empty in E.
Qed.

Lemma startswith_sep_app_l (a b : string) :
  a ≠ "" → startswith_sep (a +:+ b) = startswith_sep a.
Proof. by destruct a. Qed.

Lemma endswith_sep_split (s : string) :
  endswith_sep s = true → ∃ s', s = s' +:+ "/".
Proof.
  induction s as [|c s IH]; [done|]. cbn [endswith_sep]. destruct s as [|d s].
  - intros ->%Ascii.eqb_eq. by exists "".
  - intros [s' ->]%IH. exists (String c s'). by rewrite app_cons_s.
Qed.

Lemma foldl_step_dir_prefix (start : list string) (root rel : string) :
  foldl step start (names (dir_prefix root +:+ rel))
  = foldl step (foldl step start (names root)) (names rel).
Proof.
  unfold dir_prefix, glue. destruct (String.eqb_spec root "") as [->|Hne].
  - done.
  - cbn [orb]. destruct (endswith_sep root) eqn:Hend.
    + apply endswith_sep_split in Hend as [r' ->].
      rewrite app_nil_r_s, app_assoc_s.
      change ("/" +:+ rel) with (String "/" rel).
      change (r' +:+ "/") with (r' +:+ String "/" "").
      rewrite !names_app_sep, !foldl_app. done.
    + rewrite app_assoc_s. change ("/" +:+ rel) with (String "/" rel).
      by rewrite names_app_sep, foldl_app.
Qed.

Lemma startswith_sep_dir_prefix (root rel : string) :
  startswith_sep rel = false →
  startswith_sep (dir_prefix root +:+ rel) = startswith_sep root.
Proof.
  intros Hrel. destruct root as [|c root]; [done|]. done.
Qed.

(** A relative path joined to a root is resolved from the node of the
    root. *)
Lemma resolve_join (cwd : list string) (root rel : string) :
  startswith_sep rel = false →
  resolve cwd (dir_prefix root +:+ rel) = foldl step (resolve cwd root) (names rel).
Proof.
  intros Hrel. unfold resolve.
  by rewrite startswith_sep_dir_prefix, foldl_step_dir_prefix.
Qed.

Lemma resolve_under (cwd : list string) (root rel : string) :
  canonical rel →
  resolve cwd (dir_prefix root +:+ rel) = resolve cwd root ++ names rel.
Proof.
  intros Hrel. rewrite resolve_join by (by apply canonical_rel).
  by apply foldl_step_real.
Qed.

Lemma part_name_real (i : nat) : real_name (part_name i).
Proof. unfold part_name. repeat split; done. Qed.

Lemma part_name_canonical (i : nat) : canonical (part_name i).
Proof.
  apply canonical_nosep; [apply no_sep_part_name | apply part_name_real].
Qed.

(** The files of [to_parquet] are entries of one directory. *)
Lemma part_node_base (cwd : list string) (dir : string) :
  ∃ base, ∀ i, resolve cwd (part_path dir i) = base ++ [part_name i].
Proof.
  exists (foldl step (if startswith_sep (dir +:+ "/") then [] else cwd)
                (names dir)).
  intros i. unfold resolve, part_path.
  change ("/" +:+ part_name i) with (String "/" (part_name i)).
  rewrite names_app_sep, foldl_app.
  rewrite (names_nosep (part_name i)) by apply no_sep_part_name.
  cbn [foldl]. rewrite step_real by apply part_name_real.
  by destruct dir.
Qed.

Lemma resolve_part_path (cwd : list string) (dir : string) (i : nat) :
  dir ≠ "" → resolve cwd (part_path dir i) = resolve cwd dir ++ [part_name i].
Proof.
  intros Hdir. unfold resolve, part_path.
  change ("/" +:+ part_name i) with (String "/" (part_name i)).
  rewrite names_app_sep, foldl_app.
  rewrite (names_nosep (part_name i)) by apply no_sep_part_name.
  cbn [foldl]. rewrite step_real by apply part_name_real.
  by rewrite startswith_sep_app_l.
Qed.

Lemma part_node_inj (cwd : list string) (dir : string) (i j : nat) :
  resolve cwd (part_path dir i) = resolve cwd (part_path dir j) → i = j.
Proof.
  destruct (part_node_base cwd dir) as [base Hb]. rewrite !Hb.
  intros H%app_inv_head. apply part_name_inj.
  apply (f_equal (λ l, default "" (head l))) in H. exact H.
Qed.

(** The location of a key for a symbol in canonical form. *)
Lemma yr_path_canonical (root t : string) (y : Z) :
  canonical t →
  yr_path root t y = dir_prefix root +:+ t +:+ "/" +:+ t +:+ "_" +:+ pretty y.
Proof.
  intros Ht. rewrite yr_path_rel by (by apply canonical_rel).
  assert (glue (root +:+ glue root +:+ t) = "/") as ->.
  { unfold glue at 1. rewrite <- app_assoc_s.
    assert (t ≠ "") as Hne by (by apply canonical_not_empty).
    rewrite endswith_sep_app by done.
    rewrite canonical_not_endswith_sep, orb_false_r by done.
    destruct (String.eqb_spec ((root +:+ glue root) +:+ t) "") as [E|]; [|done].
    by apply app_eq_empty in E. }
  unfold dir_prefix. by rewrite !app_assoc_s.
Qed.

Lemma part_file_rel (root : string) (x : string * Z * nat * list YrRow) :
  canonical x.1.1.1 → part_file root x = dir_prefix root +:+ part_rel x.
Proof.
  intros Ht. unfold part_file, part_rel, part_path.
  rewrite yr_path_canonical by done. by rewrite !app_assoc_s.
Qed.

Lemma canonical_year_dir (t : string) (y : Z) :
  canonical t → canonical (t +:+ "_" +:+ pretty y).
Proof.
  intros Ht. apply (canonical_app_nosep t _ "_"); [done| |done|done].
  rewrite has_char_app. cbn [has_char]. change (Ascii.eqb "/" "_") with false.
  cbn [orb]. eapply all_chars_has_char; [apply pretty_Z_digits | done].
Qed.

Lemma canonical_part_rel (x : string * Z * nat * list YrRow) :
  canonical x.1.1.1 → canonical (part_rel x).
Proof.
  intros Ht. unfold part_rel.
  change ("/" +:+ x.1.1.1 +:+ "_" +:+ pretty x.1.1.2 +:+ "/" +:+ part_name x.1.2)
    with (String "/" (x.1.1.1 +:+ "_" +:+ pretty x.1.1.2 +:+ "/" +:+ part_name x.1.2)).
  apply canonical_app_sep; [done|].
  rewrite <- (app_assoc_s x.1.1.1 "_"), <- (app_assoc_s (x.1.1.1 +:+ "_")).
  change ("/" +:+ part_name x.1.2) with (String "/" (part_name x.1.2)).
  apply canonical_app_sep; [|apply part_name_canonical].
  rewrite app_assoc_s. by apply canonical_year_dir.
Qed.

(** The node of the file of a partition: below the node of the root, by the
    names of the symbol, of the directory of the year and of the file. *)
Lemma part_node_under (cwd : list string) (root : string)
    (x : string * Z * nat * list YrRow) :
  canonical x.1.1.1 →
  part_node cwd root x = resolve cwd root ++ names (part_rel x).
Proof.
  intros Ht. unfold part_node. rewrite part_file_rel by done.
  apply resolve_under. by apply canonical_part_rel.
Qed.

Lemma part_node_below (cwd : list string) (root : string)
    (x : string * Z * nat * list YrRow) :
  canonical x.1.1.1 → below (resolve cwd root) (part_node cwd root x) = true.
Proof.
  intros Ht. rewrite part_node_under by done.
  apply below_app, names_not_nil.
Qed.

(** ** Facts: files *)

Section Files.
Context {A : Type}.
Variable cwd : list string.

(** What [to_parquet] puts at a node: the partition whose file the node
    is. *)
Lemma part_store_lookup (dir : string) (parts : list A) (k : list string)
    (c : A) :
  part_store cwd dir parts !! k = Some c ↔
  ∃ i, parts !! i = Some c ∧ k = resolve cwd (part_path dir i).
Proof.
  unfold part_store. rewrite <- elem_of_list_to_map.
  - unfold part_nodes. rewrite list_elem_of_lookup. split.
    + intros [i Hi]. rewrite list_lookup_imap in Hi.
      destruct (parts !! i) as [c'|] eqn:Hc; simplify_eq/=. eauto.
    + intros (i & Hc & ->). exists i. by rewrite list_lookup_imap, Hc.
  - unfold part_nodes. apply NoDup_alt. intros i j k'.
    rewrite !list_lookup_fmap, !list_lookup_imap.
    destruct (parts !! i), (parts !! j); simpl; try done.
    intros ? ?; simplify_eq. by eapply part_node_inj.
Qed.

Lemma part_store_lookup_part (dir : string) (parts : list A) (i : nat) (c : A) :
  parts !! i = Some c →
  part_store cwd dir parts !! resolve cwd (part_path dir i) = Some c.
Proof. intros Hc. apply part_store_lookup. eauto. Qed.

Lemma part_store_lookup_None (dir : string) (parts : list A) (k : list string) :
  part_store cwd dir parts !! k = None ↔
  ∀ i, i < length parts → k ≠ resolve cwd (part_path dir i).
Proof.
  split.
  - intros Hk i Hi ->. apply lookup_lt_is_Some_2 in Hi as [c Hc].
    by rewrite (part_store_lookup_part _ _ _ _ Hc) in Hk.
  - intros Hk. destruct (part_store cwd dir parts !! k) as [c|] eqn:E; [|done].
    apply part_store_lookup in E as (i & Hc & ->).
    apply lookup_lt_Some in Hc. by destruct (Hk i Hc).
Qed.

Lemma exec_op_lookup (op : fs_op A) (fs : store A) (k : list string) :
  exec_op cwd op fs !! k = default (fs !! k) (effect_on cwd k op).
Proof.
  destruct op as [root|dir|q c|dir parts]; simpl; [|done| |].
  - case_decide; [done|]. rewrite map_lookup_filter.
    destruct (below (resolve cwd root) k) eqn:Hin; simpl.
    + destruct (fs !! k); simpl; [|done].
      rewrite option_guard_False; [done|]. simpl. congruence.
    + destruct (fs !! k); simpl; [|done].
      rewrite option_guard_True; done.
  - destruct (decide (resolve cwd q = k)) as [->|Hne].
    + by rewrite lookup_insert_eq.
    + by rewrite lookup_insert_ne.
  - rewrite lookup_union.
    by destruct (part_store cwd dir parts !! k), (fs !! k).
Qed.

Lemma exec_ops_lookup (ops : list (fs_op A)) (fs : store A) (k : list string) :
  exec_ops cwd ops fs !! k = lookup_after cwd ops k (fs !! k).
Proof.
  unfold exec_ops, lookup_after. revert fs.
  induction ops as [|op ops IH]; intros fs; simpl; [done|].
  by rewrite IH, exec_op_lookup.
Qed.

Lemma exec_ops_cons (op : fs_op A) (ops : list (fs_op A)) (fs : store A) :
  exec_ops cwd (op :: ops) fs = exec_ops cwd ops (exec_op cwd op fs).
Proof. done. Qed.

Lemma lookup_after_cons (op : fs_op A) ops k v :
  lookup_after cwd (op :: ops) k v
  = lookup_after cwd ops k (default v (effect_on cwd k op)).
Proof. done. Qed.

(** A program either leaves [k] alone or decides what is at [k] on its
    own, whatever was there before. *)
Lemma lookup_after_cases (ops : list (fs_op A)) (k : list string) :
  (∀ v, lookup_after cwd ops k v = v) ∨ (∃ c, ∀ v, lookup_after cwd ops k v = c).
Proof.
  induction ops as [|op ops IH]; [by left|].
  unfold lookup_after in *. simpl.
  destruct IH as [IH|[c IH]]; [|right; exists c; by intros v].
  destruct (effect_on cwd k op) as [c|]; simpl.
  - right. exists c. by intros v.
  - left. by intros v.
Qed.

(** Running a program a second time changes nothing. *)
Lemma exec_ops_idemp (ops : list (fs_op A)) (fs : store A) :
  exec_ops cwd ops (exec_ops cwd ops fs) = exec_ops cwd ops fs.
Proof.
  apply map_eq. intros k. rewrite !exec_ops_lookup.
  destruct (lookup_after_cases ops k) as [H|[c H]]; by rewrite !H.
Qed.

(** A program that touches [k] in no call leaves it as it was. *)
Lemma lookup_after_untouched (ops : list (fs_op A)) (k : list string)
    (v : option A) :
  Forall (λ op, effect_on cwd k op = None) ops → lookup_after cwd ops k v = v.
Proof.
  induction 1 as [|op ops Hop _ IH]; [done|].
  by rewrite lookup_after_cons, Hop.
Qed.

(** What a program leaves at [k] was there before or was written by one of
    its calls. *)
Lemma lookup_after_Some (ops : list (fs_op A)) (k : list string)
    (v : option A) (c : A) :
  lookup_after cwd ops k v = Some c →
  v = Some c ∨ ∃ op, op ∈ ops ∧ effect_on cwd k op = Some (Some c).
Proof.
  revert v. induction ops as [|op ops IH]; intros v; [by left|].
  rewrite lookup_after_cons. intros [Hv|(op' & Hin & Hop')]%IH.
  - destruct (effect_on cwd k op) as [w|] eqn:Hop; simpl in Hv.
    + right. exists op. split; [by left|]. by rewrite Hop, Hv.
    + by left.
  - right. exists op'. split; [by right|done].
Qed.

(** When every call that touches [k] writes [c] there, and one does, [c]
    is what the program leaves at [k]. *)
Lemma lookup_after_keep (ops : list (fs_op A)) (k : list string) (c : A) :
  Forall (λ op, effect_on cwd k op = None ∨ effect_on cwd k op = Some (Some c))
         ops →
  lookup_after cwd ops k (Some c) = Some c.
Proof.
  induction 1 as [|op ops [Hop|Hop] _ IH]; [done|..];
    rewrite lookup_after_cons, Hop; exact IH.
Qed.

Lemma lookup_after_written (ops : list (fs_op A)) (k : list string) (c : A)
    (v : option A) :
  Forall (λ op, effect_on cwd k op = None ∨ effect_on cwd k op = Some (Some c))
         ops →
  Exists (λ op, effect_on cwd k op = Some (Some c)) ops →
  lookup_after cwd ops k v = Some c.
Proof.
  intros Hall. revert v. induction Hall as [|op ops Hop Hall IH]; intros v Hex.
  - by apply Exists_nil in Hex.
  - rewrite lookup_after_cons. apply Exists_cons in Hex as [Hhere|Hex].
    + rewrite Hhere. by apply lookup_after_keep.
    + by apply IH.
Qed.

(** After a program whose first call removes [root], every file below
    [root] is one a later call wrote. *)
Lemma rmtree_then_written (root : string) (ops : list (fs_op A))
    (fs : store A) (k : list string) (c : A) :
  root ≠ "" → below (resolve cwd root) k = true →
  exec_ops cwd (Rmtree root :: ops) fs !! k = Some c →
  ∃ op, op ∈ ops ∧ effect_on cwd k op = Some (Some c).
Proof.
  intros Hroot Hin. rewrite exec_ops_lookup, lookup_after_cons.
  cbn [effect_on]. rewrite decide_False, Hin by done. simpl.
  intros [?|?]%lookup_after_Some; done.
Qed.

(** *** Interrupted programs *)

(** A program stopped after [n] calls is between two calls or within call
    [n]. *)
Lemma stopped_inv (ops : list (fs_op A)) (fs fs' : store A) (n : nat) :
  stopped cwd ops fs n fs' →
  fs' = exec_ops cwd (take n ops) fs ∨
  ∃ op, ops !! n = Some op ∧ torn cwd (exec_ops cwd (take n ops) fs) fs' op.
Proof.
  induction 1 as [ops fs|op ops fs fs' Ht|op ops fs n fs' _ IH].
  - left. by rewrite take_0.
  - right. exists op. by rewrite take_0.
  - rewrite firstn_cons, exec_ops_cons. exact IH.
Qed.

Lemma stopped_length (ops : list (fs_op A)) (fs fs' : store A) (n : nat) :
  stopped cwd ops fs n fs' → n ≤ length ops.
Proof. induction 1; simpl; lia. Qed.

(** A call that is interrupted changes a node only as the call itself
    could: what it leaves there is what was there, or nothing where the call
    deletes, or a file where the call writes one. *)
Lemma torn_lookup (fs fs' : store A) (op : fs_op A) (k : list string) :
  torn cwd fs fs' op →
  fs' !! k = fs !! k ∨
  (effect_on cwd k op = Some None ∧ fs' !! k = None) ∨
  (is_Some (effect_on cwd k op ≫= id) ∧ is_Some (fs' !! k)).
Proof.
  destruct 1 as [root H|dir ->|p c H|dir parts H]; [| by left | |].
  - destruct (H k) as [?|(Hr & Hb & ?)]; [by left|]. right. left.
    cbn [effect_on]. by rewrite decide_False, Hb.
  - destruct (H k) as [?|(-> & ?)]; [by left|]. right. right.
    cbn [effect_on]. rewrite decide_True by done. split; [by eexists|done].
  - destruct (H k) as [?|([c Hc] & ?)]; [by left|]. right. right.
    cbn [effect_on]. rewrite Hc. split; [by eexists|done].
Qed.

End Files.

(** ** Facts: bronze ingestion *)

Section Bronze.
Variable cwd : list string.
Variable PRICE_DATA : string.

Lemma elem_of_bronze_parts tech_dt t y i c :
  (t, y, i, c) ∈ bronze_parts tech_dt ↔
  t ∈ unique (Ticker <$> tech_dt) ∧
  y ∈ unique (Year <$> ticker_dt tech_dt t) ∧
  yr_dd (ticker_dt tech_dt t) y !! i = Some c.
Proof.
  unfold bronze_parts. rewrite list_elem_of_bind. split.
  - intros (t' & Hy & Ht'). apply list_elem_of_bind in Hy as (y' & Hi & Hy').
    apply list_elem_of_lookup in Hi as [j Hj].
    rewrite list_lookup_imap in Hj.
    destruct (yr_dd _ _ !! j) as [c'|] eqn:Hc; simplify_eq/=. done.
  - intros (Ht & Hy & Hc). exists t. split; [|done].
    apply list_elem_of_bind. exists y. split; [|done].
    apply list_elem_of_lookup. exists i. by rewrite list_lookup_imap, Hc.
Qed.

(** The calls of the loop: for every ticker and every year of it, the
    directory of the ticker and the partition of the year. *)
Lemma elem_of_bronze_loop tech_dt (op : fs_op (list YrRow)) :
  op ∈ bronze_loop PRICE_DATA tech_dt ↔
  ∃ t y, t ∈ unique (Ticker <$> tech_dt) ∧
         y ∈ unique (Year <$> ticker_dt tech_dt t) ∧
         (op = Makedirs (dirname (yr_path PRICE_DATA t y)) ∨
          op = ToParquet (yr_path PRICE_DATA t y)
                         (yr_dd (ticker_dt tech_dt t) y)).
Proof.
  unfold bronze_loop, ingest_ticker, ingest_year. split.
  - intros (t & Hop & Ht)%list_elem_of_bind.
    apply list_elem_of_bind in Hop as (y & Hop & Hy).
    exists t, y. split; [done|]. split; [done|].
    apply elem_of_cons in Hop as [?|Hop]; [by left|].
    apply list_elem_of_singleton in Hop. by right.
  - intros (t & y & Ht & Hy & Hop).
    apply list_elem_of_bind. exists t. split; [|done].
    apply list_elem_of_bind. exists y. split; [|done].
    destruct Hop as [->| ->]; [by left | by right; left].
Qed.

(** What a call of the loop writes is the file of a partition. *)
Lemma effect_in_bronze_loop tech_dt op k v :
  op ∈ bronze_loop PRICE_DATA tech_dt → effect_on cwd k op = Some v →
  ∃ x, x ∈ bronze_parts tech_dt ∧ k = part_node cwd PRICE_DATA x ∧ v = Some x.2.
Proof.
  intros (t & y & Ht & Hy & [-> | ->])%elem_of_bronze_loop; [done|].
  cbn [effect_on]. intros Hv.
  destruct (part_store cwd _ _ !! k) as [c|] eqn:Hc; [|done].
  simpl in Hv. simplify_eq.
  apply part_store_lookup in Hc as (i & Hc & ->).
  exists (t, y, i, c). split; [|done]. by apply elem_of_bronze_parts.
Qed.

Lemma part_in_bronze_loop tech_dt x :
  x ∈ bronze_parts tech_dt →
  ∃ op, op ∈ bronze_loop PRICE_DATA tech_dt ∧
        effect_on cwd (part_node cwd PRICE_DATA x) op = Some (Some x.2).
Proof.
  destruct x as [[[t y] i] c].
  intros (Ht & Hy & Hc)%elem_of_bronze_parts.
  exists (ToParquet (yr_path PRICE_DATA t y) (yr_dd (ticker_dt tech_dt t) y)).
  split; [apply elem_of_bronze_loop; eauto 10|].
  cbn [effect_on]. unfold part_node, part_file. simpl.
  by rewrite (part_store_lookup_part cwd _ _ _ _ Hc).
Qed.

(** The rows of a partition have the ticker and the year of its key, and
    the year is the year of their date. *)
Lemma bronze_parts_rows tech_dt t y i c r :
  (t, y, i, c) ∈ bronze_parts tech_dt → r ∈ c →
  r ∈ assign_Year <$> tech_dt ∧
  Ticker (px r) = t ∧ Year r = y ∧ year (Date (px r)) = y.
Proof.
  intros (_ & _ & Hc)%elem_of_bronze_parts Hr.
  apply list_elem_of_lookup_2 in Hc.
  pose proof (elem_of_from_pandas_2 _ _ _ Hc Hr) as Hf.
  apply list_elem_of_filter in Hf as [Hy Hf].
  unfold ticker_dt in Hf. apply list_elem_of_fmap in Hf as (r0 & -> & Hr0).
  apply list_elem_of_filter in Hr0 as [Ht Hr0]. simpl in *.
  split; [|done]. apply list_elem_of_fmap. eauto.
Qed.

(** Two keys in canonical form with a file at one node are one key. *)
Lemma part_node_key_inj (x x' : string * Z * nat * list YrRow) :
  canonical x.1.1.1 → canonical x'.1.1.1 →
  part_node cwd PRICE_DATA x = part_node cwd PRICE_DATA x' →
  x.1 = x'.1.
Proof.
  intros Hx Hx'. rewrite !part_node_under by done.
  intros Heq%app_inv_head%names_inj.
  assert (part_file PRICE_DATA x = part_file PRICE_DATA x') as Hf
    by (by rewrite !part_file_rel, Heq).
  destruct x as [[[t y] i] c], x' as [[[t' y'] i'] c']. simpl in *.
  unfold part_file in Hf. simpl in Hf.
  apply part_path_inj in Hf as [Hf ->].
  apply yr_path_inj_rel in Hf as [-> ->]; [done|by apply canonical_rel..].
Qed.

Section Canonical.
Variable tech_dt : list PxRow.
Hypothesis canonical_tickers : Forall (λ r, canonical (Ticker r)) tech_dt.

Lemma bronze_parts_canonical x :
  x ∈ bronze_parts tech_dt → canonical x.1.1.1.
Proof.
  destruct x as [[[t y] i] c]. intros (Hin & _)%elem_of_bronze_parts.
  apply elem_of_unique, list_elem_of_fmap in Hin as (row & -> & Hrow).
  by eapply (proj1 (Forall_forall _ _) canonical_tickers).
Qed.

(** Two partitions written at the same node are the same partition. *)
Lemma part_node_inj_parts x x' :
  x ∈ bronze_parts tech_dt → x' ∈ bronze_parts tech_dt →
  part_node cwd PRICE_DATA x = part_node cwd PRICE_DATA x' → x = x'.
Proof.
  intros Hx Hx' Heq.
  apply part_node_key_inj in Heq; [|by apply bronze_parts_canonical..].
  destruct x as [[[t y] i] c], x' as [[[t' y'] i'] c']. simpl in *.
  simplify_eq.
  apply elem_of_bronze_parts in Hx as (_ & _ & Hc).
  apply elem_of_bronze_parts in Hx' as (_ & _ & Hc').
  by simplify_eq.
Qed.

Lemma bronze_loop_effects (k : list string) x :
  x ∈ bronze_parts tech_dt → k = part_node cwd PRICE_DATA x →
  Forall (λ op, effect_on cwd k op = None ∨ effect_on cwd k op = Some (Some x.2))
         (bronze_loop PRICE_DATA tech_dt).
Proof.
  intros Hx ->. apply Forall_forall. intros op Hop.
  destruct (effect_on cwd _ op) as [v|] eqn:Hv; [|by left]. right.
  destruct (effect_in_bronze_loop _ _ _ _ Hop Hv) as (x' & Hx' & Heq & ->).
  by rewrite (part_node_inj_parts x x' Hx Hx' Heq).
Qed.

(** After a run, the file of every partition holds the rows of the
    partition. *)
Lemma bronze_lookup_part fs x :
  x ∈ bronze_parts tech_dt →
  exec_ops cwd (bronze_ingestion PRICE_DATA tech_dt) fs
    !! part_node cwd PRICE_DATA x = Some x.2.
Proof.
  intros Hx. rewrite exec_ops_lookup. unfold bronze_ingestion.
  rewrite lookup_after_cons. apply lookup_after_written.
  - by apply bronze_loop_effects.
  - apply Exists_exists. by apply part_in_bronze_loop.
Qed.

(** After a run, every file below the root is the file of a partition. *)
Lemma bronze_lookup_below fs k c :
  PRICE_DATA ≠ "" → below (resolve cwd PRICE_DATA) k = true →
  exec_ops cwd (bronze_ingestion PRICE_DATA tech_dt) fs !! k = Some c →
  ∃ x, x ∈ bronze_parts tech_dt ∧ k = part_node cwd PRICE_DATA x ∧ c = x.2.
Proof.
  intros Hroot Hk Hc.
  apply rmtree_then_written in Hc as (op & Hop & Hv); [|done..].
  destruct (effect_in_bronze_loop _ _ _ _ Hop Hv) as (x & Hx & -> & ?).
  exists x. by simplify_eq.
Qed.

(** A run touches nothing that is not below the root. *)
Lemma bronze_lookup_outside fs k :
  below (resolve cwd PRICE_DATA) k = false →
  exec_ops cwd (bronze_ingestion PRICE_DATA tech_dt) fs !! k = fs !! k.
Proof.
  intros Hk. rewrite exec_ops_lookup. apply lookup_after_untouched.
  apply Forall_cons. split.
  - cbn [effect_on]. case_decide; [done|]. by rewrite Hk.
  - apply Forall_forall. intros op Hop.
    destruct (effect_on cwd k op) as [v|] eqn:Hv; [|done].
    destruct (effect_in_bronze_loop _ _ _ _ Hop Hv) as (x & Hx & -> & _).
    by rewrite part_node_below in Hk by (by apply bronze_parts_canonical).
Qed.

End Canonical.
End Bronze.

(** ** C9: the location of a partition *)




(** ** C10: what a bronze partition holds *)

(** C10, as found in the code.  For a non-empty root in which no [..]
    follows a name, and symbols in canonical relative form, after a run
    every file at the location of the key [(t, y)] holds only rows of
    ticker [t] dated in year [y]. *)
Theorem bronze_partition_content (cwd : list string) (PRICE_DATA : string)
    (tech_dt : list PxRow) (fs : store (list YrRow)) (t : string) (y : Z)
    (i : nat) (c : list YrRow) (r : YrRow) :
  PRICE_DATA ≠ "" → dotdot_first (names PRICE_DATA) = true →
  Forall (λ row, canonical (Ticker row)) tech_dt →
  canonical t →
  exec_ops cwd (bronze_ingestion PRICE_DATA tech_dt) fs
    !! resolve cwd (part_path (yr_path PRICE_DATA t y) i) = Some c →
  r ∈ c →
  Ticker (px r) = t ∧ year (Date (px r)) = y.
Proof.
  intros Hroot _ Hcan Ht Hc Hr.
  change (resolve cwd (part_path (yr_path PRICE_DATA t y) i))
    with (part_node cwd PRICE_DATA (t, y, i, c)) in Hc.
  apply bronze_lookup_below in Hc as (x & Hx & Heq & ->);
    [|done..|by apply part_node_below].
  apply part_node_key_inj in Heq;
    [|done|by eapply bronze_parts_canonical].
  destruct x as [[[t' y'] i'] c']. simpl in *. simplify_eq.
  by destruct (bronze_parts_rows _ _ _ _ _ _ Hx Hr) as (_ & ? & _ & ?).
Qed.

Lemma bronze_partition_content_witness :
  let r := assign_Year (synthetic_row 2 "SYN" (on_day 2024 1 4) 30) in
  exec_ops ["home"] (bronze_ingestion "data/prices" synthetic_dt) ∅
    !! resolve ["home"] (part_path (yr_path "data/prices" "SYN" 2024) 1)
    = Some [r] ∧
  Ticker (px r) = "SYN" ∧ year (Date (px r)) = 2024%Z.
Proof.
  split; [vm_compute; reflexivity|].
  apply (bronze_partition_content ["home"] "data/prices" synthetic_dt ∅
           "SYN" 2024 1
           [assign_Year (synthetic_row 2 "SYN" (on_day 2024 1 4) 30)]).
  - discriminate.
  - reflexivity.
  - repeat constructor; discriminate.
  - repeat constructor; discriminate.
  - vm_compute; reflexivity.
  - apply list_elem_of_singleton. reflexivity.
Defined.

(** C10, as stated, fails in three ways.  A ticker that starts with the
    separator: below [/r] the partitions of [/r/x/x] and of [x] for 2020 are
    one directory.  A ticker with a doubled separator: [a//b] and [a/b] name
    the same directories.  In both cases the file at the location of the
    first key holds, after the run, a row of the other ticker.  And an empty
    root, which is never cleaned up: a file that was at the location of the
    key before the run is still there after it. *)
Lemma bronze_partition_mixed :
  (let tech_dt := [ synthetic_row 0 "/r/x/x" (on_day 2020 1 2) 10;
                    synthetic_row 1 "x" (on_day 2020 1 3) 20 ] in
   let r := assign_Year (synthetic_row 1 "x" (on_day 2020 1 3) 20) in
   exec_ops ["home"] (bronze_ingestion "/r" tech_dt) ∅
     !! resolve ["home"] (part_path (yr_path "/r" "/r/x/x" 2020) 0) = Some [r] ∧
   Ticker (px r) ≠ "/r/x/x") ∧
  (let tech_dt := [ synthetic_row 0 "a//b" (on_day 2020 1 2) 10;
                    synthetic_row 1 "a/b" (on_day 2020 1 3) 20 ] in
   let r := assign_Year (synthetic_row 1 "a/b" (on_day 2020 1 3) 20) in
   exec_ops ["home"] (bronze_ingestion "data/prices" tech_dt) ∅
     !! resolve ["home"] (part_path (yr_path "data/prices" "a//b" 2020) 0)
     = Some [r] ∧
   Ticker (px r) ≠ "a//b") ∧
  (let r := assign_Year (synthetic_row 0 "OLD" (on_day 1999 1 4) 5) in
   let k := resolve ["home"] (part_path (yr_path "" "SYN" 2024) 7) in
   exec_ops ["home"] (bronze_ingestion "" synthetic_dt) {[ k := [r] ]} !! k
     = Some [r] ∧
   Ticker (px r) ≠ "SYN").
Proof.
  split; [|split]; (split; [vm_compute; reflexivity | discriminate]).
Qed.

(** ** Facts: interrupted programs, node by node *)

Section Stopped.
Context {A : Type}.
Variable cwd : list string.

(** What an interrupted program leaves at a node: what the calls that
    returned have left there, unless the call that was interrupted deletes
    the node, and may have, or writes it, and has put a file there. *)
Lemma stopped_lookup (ops : list (fs_op A)) (fs fs' : store A) (n : nat)
    (k : list string) :
  stopped cwd ops fs n fs' →
  fs' !! k = lookup_after cwd (take n ops) k (fs !! k) ∨
  ∃ op, ops !! n = Some op ∧
        ((effect_on cwd k op = Some None ∧ fs' !! k = None) ∨
         (is_Some (effect_on cwd k op ≫= id) ∧ is_Some (fs' !! k))).
Proof.
  intros [->|(op & Hop & Ht)]%stopped_inv.
  - left. apply exec_ops_lookup.
  - destruct (torn_lookup cwd _ _ _ k Ht) as [E|E].
    + left. rewrite E. apply exec_ops_lookup.
    + right. eauto.
Qed.

(** One of the files of [to_parquet] is in place, the others are not yet
    begun: a state of the interrupted call. *)
Lemma torn_part_written (dir : string) (parts : list A) (fs : store A)
    (i : nat) (c : A) :
  parts !! i = Some c →
  torn cwd fs (<[resolve cwd (part_path dir i) := c]> fs) (ToParquet dir parts).
Proof.
  intros Hc. constructor. intros k.
  destruct (decide (k = resolve cwd (part_path dir i))) as [->|Hne].
  - right. rewrite lookup_insert_eq, (part_store_lookup_part cwd _ _ _ _ Hc).
    split; by eexists.
  - left. by rewrite lookup_insert_ne.
Qed.

End Stopped.

(** ** C4 and C5: replacing a partition, replacing the silver dataset *)




(** What the calls of the save that have returned leave at a node below
    the silver root. *)
Lemma silver_save_after (cwd : list string) (FEATURES_DATA : string)
    (parts : list (list RetRow)) (n : nat) (k : list string)
    (v : option (list RetRow)) :
  FEATURES_DATA ≠ "" → below (resolve cwd FEATURES_DATA) k = true →
  lookup_after cwd (take n (silver_save FEATURES_DATA parts)) k v
  = if decide (n = 0) then v
    else if decide (n < 3) then None
    else part_store cwd FEATURES_DATA parts !! k.
Proof.
  intros Hroot Hk.
  assert (effect_on cwd k (Rmtree FEATURES_DATA : fs_op (list RetRow))
          = Some None) as Hrm.
  { cbn [effect_on]. by rewrite decide_False, Hk. }
  destruct n as [|[|[|n]]].
  - done.
  - cbn [take firstn silver_save]. by rewrite lookup_after_cons, Hrm.
  - cbn [take firstn silver_save]. by rewrite !lookup_after_cons, Hrm.
  - rewrite take_ge by (simpl; lia). unfold silver_save.
    rewrite !lookup_after_cons, Hrm. cbn [lookup_after foldl effect_on].
    rewrite decide_False by lia. rewrite decide_False by lia.
    by destruct (part_store cwd FEATURES_DATA parts !! k).
Qed.




(** ** C1: running the ingestion twice *)




(** ** C3: the returns, and the lag within a group *)

(** *** float64 facts *)

Lemma isna_Prim2SF (x : float) : isna x = true ↔ Prim2SF x = S754_nan.
Proof.
  unfold isna, is_nan. rewrite FloatAxioms.eqb_spec. unfold SFeqb.
  destruct (Prim2SF x) as [s|s| |s m e]; simpl.
  - split; discriminate.
  - destruct s; split; discriminate.
  - done.
  - rewrite Z.compare_refl, Pos.compare_cont_refl.
    destruct s; split; discriminate.
Qed.

(** A NaN lag gives a NaN return. *)
Lemma returns_nan_lag (c l : float) :
  isna l = true → isna (c / l - 1)%float = true.
Proof.
  rewrite !isna_Prim2SF. intros Hl.
  rewrite sub_spec, div_spec, Hl.
  by destruct (Prim2SF c).
Qed.

(** A zero lag under a close that is neither zero nor NaN gives an
    infinite return: the division is carried out. *)
Lemma returns_zero_lag (c l : float) :
  is_zero l = true → isna c = false → is_zero c = false →
  is_infinity (c / l - 1)%float = true.
Proof.
  unfold is_zero, is_infinity, isna, is_nan.
  rewrite !FloatAxioms.eqb_spec, abs_spec, sub_spec, div_spec.
  change (Prim2SF PrimFloat.zero) with (S754_zero false).
  change (Prim2SF infinity) with (S754_infinity false).
  change (Prim2SF 1) with (S754_finite false 4503599627370496 (-52)).
  unfold SFeqb.
  destruct (Prim2SF l) as [sl|sl| |sl ml el]; simpl;
    [|by destruct sl|done|by destruct sl].
  intros _. destruct (Prim2SF c) as [sc|sc| |sc mc ec]; simpl; try done;
    by destruct sc, sl.
Qed.

(** *** The lag within a group *)

Lemma shift_1_lookup_0 (col : list float) :
  col ≠ [] → shift_1 col !! 0 = Some nan.
Proof. by destruct col. Qed.

Lemma shift_1_lookup_S (col : list float) (j : nat) (x : float) :
  shift_1 col !! S j = Some x → col !! j = Some x.
Proof.
  unfold shift_1. intros [? ?]%lookup_take_Some. done.
Qed.

Lemma length_shift_1 (col : list float) : length (shift_1 col) = length col.
Proof. unfold shift_1. rewrite length_take. simpl. lia. Qed.

Lemma yrow_assign_Close_lag_1 (x : list YrRow) :
  yrow <$> assign_Close_lag_1 x = x.
Proof.
  unfold assign_Close_lag_1. apply list_eq. intros i.
  rewrite list_lookup_fmap, lookup_zip_with.
  destruct (x !! i) as [r|] eqn:Hr; simpl; [|done].
  destruct (shift_1 _ !! i) as [lag|] eqn:Hlag; simpl; [done|].
  apply lookup_ge_None in Hlag. apply lookup_lt_Some in Hr.
  rewrite length_shift_1, length_fmap in Hlag. lia.
Qed.

Lemma assign_Close_lag_1_lookup (x : list YrRow) (i : nat) (s : ShiftRow) :
  assign_Close_lag_1 x !! i = Some s →
  match i with
  | 0 => isna (Close_lag_1 s) = true
  | S j => ∃ prev, x !! j = Some prev ∧ Close_lag_1 s = Close (px prev)
  end.
Proof.
  unfold assign_Close_lag_1. intros Hs.
  apply lookup_zip_with_Some in Hs as (r & lag & -> & Hr & Hlag). simpl.
  destruct i as [|j].
  - rewrite shift_1_lookup_0 in Hlag by (by destruct x). by simplify_eq.
  - apply shift_1_lookup_S in Hlag. rewrite list_lookup_fmap in Hlag.
    destruct (x !! j) as [prev|]; simplify_eq/=. eauto.
Qed.

Lemma filter_all {B : Type} (P : B → Prop) `{∀ x, Decision (P x)} (l : list B) :
  Forall P l → filter P l = l.
Proof.
  induction 1 as [|x l Hx _ IH]; [done|].
  by rewrite filter_cons_True, IH.
Qed.

Lemma filter_none {B : Type} (P : B → Prop) `{∀ x, Decision (P x)} (l : list B) :
  Forall (λ x, ¬ P x) l → filter P l = [].
Proof.
  induction 1 as [|x l Hx _ IH]; [done|].
  by rewrite filter_cons_False.
Qed.

(** The rows of one key in a frame put together group by group are the
    group of that key. *)
Lemma filter_bind_groups {K B : Type} `{EqDecision K} (key : B → K)
    (f : K → list B) (ks : list K) (t : K) :
  NoDup ks → (∀ k b, b ∈ f k → key b = k) →
  filter (λ b, key b = t) (ks ≫= f) = if decide (t ∈ ks) then f t else [].
Proof.
  intros Hnd Hkey. induction ks as [|k ks IH]; [done|].
  apply NoDup_cons in Hnd as [Hk Hnd]. rewrite bind_cons, filter_app, IH by done.
  destruct (decide (k = t)) as [->|Hne].
  - rewrite (decide_True (P := t ∈ t :: ks)) by (by left).
    rewrite decide_False by done.
    rewrite app_nil_r. apply filter_all, Forall_forall.
    intros b Hb. by apply Hkey.
  - assert (filter (λ b, key b = t) (f k) = []) as ->.
    { apply filter_none, Forall_forall. intros b Hb Hbt.
      apply Hkey in Hb. congruence. }
    simpl. destruct (decide (t ∈ ks)).
    + by rewrite decide_True by (by right).
    + rewrite decide_False; [done|]. by intros [?|?]%elem_of_cons.
Qed.

Lemma dd_shift_group (frame : list YrRow) (t : string) :
  filter (λ s, Ticker (px (yrow s)) = t) (dd_shift frame) =
  assign_Close_lag_1 (filter (λ r, Ticker (px r) = t) frame).
Proof.
  unfold dd_shift.
  rewrite (filter_bind_groups (λ s, Ticker (px (yrow s)))).
  - case_decide as Hin; [done|].
    assert (filter (λ r, Ticker (px r) = t) frame = []) as ->; [|done].
    apply filter_none, Forall_forall. intros r Hr Ht. apply Hin.
    apply elem_of_unique, list_elem_of_fmap. eauto.
  - apply NoDup_unique.
  - intros k s Hs. apply (list_elem_of_fmap_2 yrow) in Hs.
    rewrite yrow_assign_Close_lag_1 in Hs.
    by apply list_elem_of_filter in Hs as [? _].
Qed.


(** C3, as found in the code.  [Returns] is the float64 value of
    [Close / Close_lag_1 - 1] on every row, with no guard on the lag: it is
    null (NaN) when the lag is null, and when the lag is zero the division
    is carried out and gives an infinite return for a close that is neither
    zero nor null. *)
Theorem returns_unguarded (frame : list YrRow) (r : RetRow) :
  r ∈ dd_rets (dd_shift frame) →
  Returns r = (Close (px (yrow (srow r))) / Close_lag_1 (srow r) - 1)%float ∧
  (isna (Close_lag_1 (srow r)) = true → isna (Returns r) = true) ∧
  (is_zero (Close_lag_1 (srow r)) = true →
   isna (Close (px (yrow (srow r)))) = false →
   is_zero (Close (px (yrow (srow r)))) = false →
   is_infinity (Returns r) = true).
Proof.
  unfold dd_rets. intros (s & -> & _)%list_elem_of_fmap. simpl.
  split; [done|]. split.
  - apply returns_nan_lag.
  - apply returns_zero_lag.
Qed.

Lemma returns_unguarded_witness :
  let frame := assign_Year <$> synthetic_dt in
  let r := assign_Returns
    {| yrow := assign_Year (synthetic_row 1 "SYN" (on_day 2024 1 3) 20);
       Close_lag_1 := 10 |} in
  r ∈ dd_rets (dd_shift frame) ∧ Returns r = 1%float.
Proof.
  intros frame r.
  assert (r ∈ dd_rets (dd_shift frame)) as Hr.
  { apply list_elem_of_lookup. exists 1. vm_compute. reflexivity. }
  split; [exact Hr|].
  destruct (returns_unguarded frame r Hr) as [-> _]. reflexivity.
Defined.

(** C3, as stated, fails: for closes 0 then 5 the second row has a zero
    lag, and its return is not null but infinite. *)
Lemma returns_zero_lag_not_null :
  let frame := assign_Year <$>
    [ synthetic_row 0 "SYN" (on_day 2024 1 2) 0;
      synthetic_row 1 "SYN" (on_day 2024 1 3) 5 ] in
  let r := assign_Returns
    {| yrow := assign_Year (synthetic_row 1 "SYN" (on_day 2024 1 3) 5);
       Close_lag_1 := 0 |} in
  r ∈ dd_rets (dd_shift frame) ∧
  is_zero (Close_lag_1 (srow r)) = true ∧
  isna (Returns r) = false ∧ Returns r = infinity.
Proof.
  intros frame r. split; [|by vm_compute].
  apply list_elem_of_lookup. exists 1. vm_compute. reflexivity.
Qed.

(** ** C8: what the normalisation keeps *)

Lemma reset_index_rows (l : list (Timestamp * string * Quote)) :
  (λ r, (Date r, Ticker r, row_quote r)) <$> reset_index l = l.
Proof.
  unfold reset_index. apply list_eq. intros i.
  rewrite !list_lookup_fmap, list_lookup_imap.
  by destruct (l !! i) as [[[d t] []]|].
Qed.

Lemma stack_keys (raw : WideFrame) :
  wf_wide raw →
  fst <$> stack raw = (r ← w_rows raw; pair r.1 <$> w_tickers raw).
Proof.
  unfold wf_wide, stack. induction 1 as [|r rows Hr _ IH]; [done|].
  rewrite !bind_cons, fmap_app, IH. f_equal.
  rewrite <- list_fmap_compose.
  rewrite <- (fst_zip (w_tickers raw) r.2) at 2 by lia.
  by rewrite <- list_fmap_compose.
Qed.

(** C8, as found in the code.  The rows of [tech_dt] are the cells of the
    response, with their quotes, one for every date of the response and
    every ticker of its columns: a ticker without data is not left out, it
    has a row on every date like any other (with the NaN prices the
    response has for it). *)
Theorem tech_dt_keeps_every_pair (tech_raw_dt : WideFrame) :
  wf_wide tech_raw_dt →
  (λ r, (Date r, Ticker r, row_quote r)) <$> tech_dt tech_raw_dt
    ≡ₚ stack tech_raw_dt ∧
  (λ r, (Date r, Ticker r)) <$> tech_dt tech_raw_dt
    ≡ₚ (r ← w_rows tech_raw_dt; pair r.1 <$> w_tickers tech_raw_dt).
Proof.
  intros Hwf. unfold tech_dt, sort_values.
  assert ((λ r, (Date r, Ticker r, row_quote r)) <$>
            isort ticker_date_leb (reset_index (stack tech_raw_dt))
          ≡ₚ stack tech_raw_dt) as Hrows.
  { by rewrite isort_perm, reset_index_rows. }
  split; [exact Hrows|].
  rewrite <- (stack_keys tech_raw_dt Hwf).
  etrans; [|apply (fmap_Permutation fst), Hrows].
  by rewrite <- list_fmap_compose.
Qed.

Lemma tech_dt_keeps_every_pair_witness :
  wf_wide raw_with_unknown ∧
  (λ r, (Date r, Ticker r, row_quote r)) <$> tech_dt raw_with_unknown
    ≡ₚ stack raw_with_unknown ∧
  (λ r, (Date r, Ticker r)) <$> tech_dt raw_with_unknown
    ≡ₚ (r ← w_rows raw_with_unknown; pair r.1 <$> w_tickers raw_with_unknown).
Proof.
  assert (wf_wide raw_with_unknown) as Hwf by (repeat constructor).
  split; [exact Hwf|]. exact (tech_dt_keeps_every_pair raw_with_unknown Hwf).
Defined.

(** C8, as stated, fails: the ticker without data is among the tickers of
    [tech_dt], with one all-NaN row for each date. *)
Lemma unknown_symbol_kept :
  unique (Ticker <$> tech_dt raw_with_unknown)
    = ["AAA"; "BBB"; "CCC"; "DDD"; "ZZZZ"] ∧
  (λ r, (Date r, isna (Close r))) <$>
    filter (λ r, Ticker r = "ZZZZ") (tech_dt raw_with_unknown)
    = [(on_day 2024 1 2, true); (on_day 2024 1 3, true)].
Proof. split; vm_compute; reflexivity. Qed.

(** ** C7: exceptions end the run *)

Section Exceptions.
Context {A : Type}.
Variable cwd : list string.
Variable writable : list string → bool.

(** A call leaves the store as it is when it is interrupted before it has
    done anything. *)
Lemma torn_refl (fs : store A) (op : fs_op A) : torn cwd fs fs op.
Proof. destruct op; constructor; (done || by left). Qed.

Lemma raises_not_returns (fs fs' : store A) (op : fs_op A) (e : exn) :
  raises cwd writable fs op e fs' → returns cwd writable op = false.
Proof.
  intros (k & Hk & Hw & _). unfold returns.
  destruct (forallb writable (targets cwd op)) eqn:E; [|done].
  rewrite forallb_forall in E. apply list_elem_of_In, E in Hk. congruence.
Qed.

Lemma not_returns_raises (fs : store A) (op : fs_op A) :
  returns cwd writable op = false → ∃ e, raises cwd writable fs op e fs.
Proof.
  unfold returns. intros E.
  assert (∃ k, k ∈ targets cwd op ∧ writable k = false) as (k & Hk & Hw).
  { induction (targets cwd op) as [|k l IH]; [done|]. simpl in E.
    destruct (writable k) eqn:Hw.
    - destruct (IH E) as (k' & ? & ?). exists k'. split; [by right|done].
    - exists k. split; [by left|done]. }
  exists (OSError k), k. split; [done|]. split; [done|]. split; [done|].
  split; [apply torn_refl|done].
Qed.

(** Every run has an outcome. *)
Lemma run_exc_total (ops : list (fs_op A)) (fs : store A) :
  ∃ o, run_exc cwd writable ops fs o.
Proof.
  revert fs. induction ops as [|op ops IH]; intros fs.
  - exists (Done fs). constructor.
  - destruct (returns cwd writable op) eqn:Hop.
    + destruct (IH (exec_op cwd op fs)) as [o Ho]. exists o. by constructor.
    + destruct (not_returns_raises fs op Hop) as [e He].
      exists (Raised e fs). by constructor.
Qed.

(** A run is done when every call returns; it ends at the first call that
    does not, with the calls before it done. *)
Lemma run_exc_spec (ops : list (fs_op A)) (fs : store A) (o : outcome (store A)) :
  run_exc cwd writable ops fs o →
  match o with
  | Done fs' =>
      Forall (λ op, returns cwd writable op = true) ops ∧
      fs' = exec_ops cwd ops fs
  | Raised e fs' =>
      ∃ n op, ops !! n = Some op ∧
              Forall (λ op, returns cwd writable op = true) (take n ops) ∧
              raises cwd writable (exec_ops cwd (take n ops) fs) op e fs'
  end.
Proof.
  induction 1 as [fs|op ops fs o Hop _ IH|op ops fs e fs' He].
  - done.
  - destruct o as [fs'|e fs'].
    + destruct IH as [? ->]. split; [by constructor | done].
    + destruct IH as (n & op' & Hn & Hall & He).
      exists (S n), op'. split; [done|]. split; [|done].
      cbn [take firstn]. by constructor.
  - exists 0, op. split; [done|]. split; [constructor | done].
Qed.

End Exceptions.



(** ** C6: reading the bronze store back *)

Lemma all_visible_nosep (s : string) :
  has_char "/" s = false → all_visible false s = true.
Proof.
  induction s as [|c s IH]; cbn [all_visible has_char]; [done|].
  intros [Hc Hs]%orb_false_iff. rewrite Ascii.eqb_sym, Hc. by rewrite IH.
Qed.


Lemma plain_symbol_rel (t : string) : plain_symbol t → startswith_sep t = false.
Proof.
  destruct t as [|c t]; [done|]. unfold plain_symbol.
  cbn [all_visible startswith_sep]. by destruct (Ascii.eqb c "/").
Qed.

Lemma visible_not_endswith_sep (b : bool) (t : string) :
  all_visible b t = true → t ≠ "" → endswith_sep t = false.
Proof.
  revert b. induction t as [|c t IH]; intros b H Ht; [done|].
  cbn [all_visible] in H. destruct t as [|d t].
  - cbn [endswith_sep all_visible] in *. destruct (Ascii.eqb c "/"); [|done].
    by rewrite andb_false_r in H.
  - change (endswith_sep (String c (String d t)))
      with (endswith_sep (String d t)).
    destruct (Ascii.eqb c "/"); apply andb_true_iff in H as [_ H];
      by eapply IH.
Qed.

Lemma glue_plain (x t : string) : plain_symbol t → glue (x +:+ t) = "/".
Proof.
  intros Ht. assert (t ≠ "") as Hne by (by intros ->).
  unfold glue. rewrite endswith_sep_app by done.
  rewrite (visible_not_endswith_sep true t Ht Hne), orb_false_r.
  destruct (String.eqb_spec (x +:+ t) "") as [E|]; [|done].
  by apply app_eq_empty in E.
Qed.

(** The layout [<root>/<symbol>/<symbol>_<period>] for a plain symbol. *)
Lemma yr_path_plain (root t : string) (y : Z) :
  plain_symbol t →
  yr_path root t y = dir_prefix root +:+ t +:+ "/" +:+ t +:+ "_" +:+ pretty y.
Proof.
  intros Ht. rewrite yr_path_rel by (by apply plain_symbol_rel).
  rewrite <- (app_assoc_s root (glue root) t), glue_plain by done.
  unfold dir_prefix. by rewrite !app_assoc_s.
Qed.

Lemma endswith_app (suffix a : string) : endswith suffix (a +:+ suffix) = true.
Proof.
  induction a as [|c a IH].
  - rewrite app_nil_l_s. destruct suffix; cbn [endswith];
      by rewrite String.eqb_refl.
  - rewrite app_cons_s. cbn [endswith]. by rewrite IH, orb_true_r.
Qed.

Lemma NoDup_imap_indexed {K B : Type} (k : K) (l : list B) :
  NoDup (imap (λ i c, (k, i, c)) l).
Proof.
  apply (NoDup_fmap_1 (λ x, x.1.2)).
  assert ((λ x : K * nat * B, x.1.2) <$> imap (λ i c, (k, i, c)) l
          = seq 0 (length l)) as ->; [|apply NoDup_seq].
  apply list_eq. intros i.
  rewrite list_lookup_fmap, list_lookup_imap.
  destruct (l !! i) as [c|] eqn:Hc; simpl.
  - apply lookup_lt_Some in Hc. by rewrite lookup_seq_lt.
  - apply lookup_ge_None in Hc. by rewrite lookup_seq_ge.
Qed.

(** *** What [glob] finds after a run *)

(** The names of a path are visible when the path is. *)
Lemma all_visible_names (s : string) :
  all_visible true s = forallb visible_name (names s) ∧
  all_visible false s = forallb visible_name (tail (names s)).
Proof.
  induction s as [|c s [IH1 IH2]]; [done|].
  cbn [all_visible names]. destruct (Ascii.eqb c "/") eqn:Hc.
  - cbn [negb andb tail forallb visible_name]. by rewrite IH1.
  - destruct (names s) as [|n ns] eqn:E; [by apply names_not_nil in E|].
    cbn [tail forallb visible_name] in *. rewrite IH2. split; [|done].
    done.
Qed.

Lemma plain_symbol_names (t : string) :
  plain_symbol t → Forall (λ n, visible_name n = true) (names t).
Proof.
  unfold plain_symbol. rewrite (proj1 (all_visible_names t)).
  rewrite forallb_forall, Forall_forall. intros H n Hn.
  by apply H, list_elem_of_In.
Qed.

Lemma visible_real_name (n : string) : visible_name n = true → real_name n.
Proof. destruct n as [|c n]; [done|]. simpl. intros Hc. by repeat split; intros [= -> ?]. Qed.

Lemma plain_symbol_canonical (t : string) : plain_symbol t → canonical t.
Proof.
  intros Ht%plain_symbol_names. unfold canonical.
  eapply Forall_impl; [exact Ht|]. apply visible_real_name.
Qed.

Lemma visible_name_app (n s : string) :
  visible_name n = true → visible_name (n +:+ s) = true.
Proof. by destruct n. Qed.

Lemma endswith_no_char (c : ascii) (suffix s : string) :
  has_char c suffix = true → has_char c s = false → endswith suffix s = false.
Proof.
  intros Hsuf. induction s as [|d s IH]; intros Hs.
  - destruct suffix; [done|]. done.
  - cbn [endswith]. cbn [has_char] in Hs. apply orb_false_iff in Hs as [Hd Hs].
    rewrite (IH Hs), orb_false_r.
    destruct (String.eqb_spec (String d s) suffix) as [<-|]; [|done].
    cbn [has_char] in Hsuf. by rewrite Hd, Hs in Hsuf.
Qed.

Lemma endswith_app_r (suffix a b : string) :
  String.length suffix ≤ String.length b →
  endswith suffix (a +:+ b) = endswith suffix b.
Proof.
  intros Hlen. induction a as [|c a IH]; [by rewrite app_nil_l_s|].
  rewrite app_cons_s. cbn [endswith]. rewrite IH.
  destruct (String.eqb_spec (String c (a +:+ b)) suffix) as [E|]; [|done].
  apply (f_equal String.length) in E. simpl in E.
  rewrite length_app_s in E. lia.
Qed.

Lemma endswith_length (suffix s : string) :
  endswith suffix s = true → String.length suffix ≤ String.length s.
Proof.
  induction s as [|c s IH]; cbn [endswith].
  - rewrite orb_false_r. by intros <-%String.eqb_eq.
  - intros [<-%String.eqb_eq|H%IH]%orb_true_iff; simpl in *; lia.
Qed.

(** A name that goes on with a tail without the letter [t] does not end in
    [.parquet]. *)
Lemma endswith_parquet_tail (n b : string) :
  b ≠ "" → has_char "t" b = false → endswith ".parquet" (n +:+ b) = false.
Proof.
  intros Hne Hb.
  destruct (decide (String.length ".parquet" ≤ String.length b)).
  { rewrite endswith_app_r by done. by apply (endswith_no_char "t"). }
  destruct (endswith ".parquet" (n +:+ b)) eqn:E; [|done]. exfalso.
  assert (∃ a, a +:+ b = ".parquet") as [a Ha].
  { clear Hne Hb. induction n as [|c s IH].
    - rewrite app_nil_l_s in E. apply endswith_length in E. lia.
    - rewrite app_cons_s in E. cbn [endswith] in E.
      apply orb_true_iff in E as [E|E]; [|by apply IH].
      apply String.eqb_eq in E. exists (String c s). by rewrite app_cons_s. }
  assert (has_char "t" b = true) as Hc; [|congruence].
  clear E n0.
  do 8 (destruct a as [|? a];
        [rewrite app_nil_l_s in Ha; by subst
        |rewrite app_cons_s in Ha; injection Ha as -> Ha]).
  by destruct a.
Qed.

(** The name of the directory of a year does not end in [.parquet]. *)
Lemma year_dir_not_parquet (n : string) (y : Z) :
  endswith ".parquet" (n +:+ "_" +:+ pretty y) = false.
Proof.
  apply endswith_parquet_tail; [done|].
  change ("_" +:+ pretty y) with (String "_" (pretty y)).
  cbn [has_char]. change (Ascii.eqb "t" "_") with false. cbn [orb].
  eapply all_chars_has_char; [apply pretty_Z_digits | done].
Qed.

Lemma NoDup_bronze_parts (tech_dt : list PxRow) : NoDup (bronze_parts tech_dt).
Proof.
  unfold bronze_parts. apply NoDup_bind; [| |apply NoDup_unique].
  - intros t1 t2 [[[t y] i] c] _ _ H1 H2.
    apply list_elem_of_bind in H1 as (? & H1 & _).
    apply list_elem_of_bind in H2 as (? & H2 & _).
    apply list_elem_of_lookup in H1 as [j1 H1].
    apply list_elem_of_lookup in H2 as [j2 H2].
    rewrite list_lookup_imap in H1, H2.
    destruct (yr_dd _ _ !! j1), (yr_dd _ _ !! j2); simplify_eq/=. done.
  - intros t _. apply NoDup_bind; [| |apply NoDup_unique].
    + intros y1 y2 [[[t' y] i] c] _ _ H1 H2.
      apply list_elem_of_lookup in H1 as [j1 H1].
      apply list_elem_of_lookup in H2 as [j2 H2].
      rewrite list_lookup_imap in H1, H2.
      destruct (yr_dd _ _ !! j1), (yr_dd _ _ !! j2); simplify_eq/=. done.
    + intros y _. apply (NoDup_imap_indexed (t, y)).
Qed.

(** The names from the root down to the file of a partition. *)
Lemma names_part_rel (x : string * Z * nat * list YrRow) :
  ∃ ns n, names x.1.1.1 = ns ++ [n] ∧
          names (part_rel x)
          = names x.1.1.1 ++ ns ++ [n +:+ "_" +:+ pretty x.1.1.2; part_name x.1.2].
Proof.
  destruct x as [[[t y] i] c]. unfold part_rel. simpl.
  destruct (names_app_nosep t ("_" +:+ pretty y)) as (ns & n & Ht & Hty).
  { rewrite has_char_app. cbn [has_char]. change (Ascii.eqb "/" "_") with false.
    cbn [orb]. eapply all_chars_has_char; [apply pretty_Z_digits | done]. }
  exists ns, n. split; [done|].
  change ("/" +:+ t +:+ "_" +:+ pretty y +:+ "/" +:+ part_name i)
    with (String "/" (t +:+ "_" +:+ pretty y +:+ "/" +:+ part_name i)).
  rewrite names_app_sep. f_equal.
  rewrite <- (app_assoc_s t "_"), <- (app_assoc_s (t +:+ "_")).
  change ("/" +:+ part_name i) with (String "/" (part_name i)).
  rewrite names_app_sep, app_assoc_s, Hty.
  rewrite (names_nosep (part_name i)) by apply no_sep_part_name.
  by rewrite <- app_assoc.
Qed.

(** Two partitions of plain symbols written at the same path are the same
    partition. *)
Lemma part_file_inj (PRICE_DATA : string) (tech_dt : list PxRow) x x' :
  Forall (λ r, plain_symbol (Ticker r)) tech_dt →
  x ∈ bronze_parts tech_dt → x' ∈ bronze_parts tech_dt →
  part_file PRICE_DATA x = part_file PRICE_DATA x' → x = x'.
Proof.
  intros Hplain.
  assert (∀ t y i c, (t, y, i, c) ∈ bronze_parts tech_dt →
            startswith_sep t = false) as Hrel.
  { intros t y i c (Hin & _)%elem_of_bronze_parts.
    apply elem_of_unique, list_elem_of_fmap in Hin as (row & -> & Hrow).
    by eapply plain_symbol_rel, (proj1 (Forall_forall _ _) Hplain). }
  destruct x as [[[t y] i] c], x' as [[[t' y'] i'] c'].
  unfold part_file. simpl. intros Hx Hx' Heq.
  apply part_path_inj in Heq as [Heq ->].
  apply yr_path_inj_rel in Heq as [-> ->]; [|by eapply Hrel..].
  apply elem_of_bronze_parts in Hx as (_ & _ & Hc).
  apply elem_of_bronze_parts in Hx' as (_ & _ & Hc').
  by simplify_eq.
Qed.

Section ReadBack.
Variable cwd : list string.
Variable PRICE_DATA : string.
Variable tech_dt : list PxRow.
Hypothesis root_not_empty : PRICE_DATA ≠ "".
Hypothesis plain_tickers : Forall (λ r, plain_symbol (Ticker r)) tech_dt.
Hypothesis no_parquet_tickers :
  Forall (λ r, no_parquet_name (Ticker r)) tech_dt.

Lemma plain_canonical_tickers : Forall (λ r, canonical (Ticker r)) tech_dt.
Proof.
  eapply Forall_impl; [exact plain_tickers|].
  intros r. apply plain_symbol_canonical.
Qed.

Lemma bronze_parts_plain t y i c :
  (t, y, i, c) ∈ bronze_parts tech_dt → plain_symbol t ∧ no_parquet_name t.
Proof.
  intros (Hin & _)%elem_of_bronze_parts.
  apply elem_of_unique, list_elem_of_fmap in Hin as (row & -> & Hrow).
  split.
  - by eapply (proj1 (Forall_forall _ _) plain_tickers).
  - by eapply (proj1 (Forall_forall _ _) no_parquet_tickers).
Qed.

Lemma last_snoc_default (l : list string) (n : string) :
  default "" (last (l ++ [n])) = n.
Proof. by rewrite last_snoc. Qed.

(** The file of a partition matches the pattern. *)
Lemma part_node_glob x :
  x ∈ bronze_parts tech_dt →
  glob_match (resolve cwd PRICE_DATA) (part_node cwd PRICE_DATA x) = true.
Proof.
  intros Hx. destruct x as [[[t y] i] c].
  destruct (bronze_parts_plain _ _ _ _ Hx) as [Ht _].
  pose proof (plain_symbol_names t Ht) as Hvis.
  unfold glob_match.
  rewrite part_node_under by (by apply plain_symbol_canonical).
  rewrite drop_app_length.
  destruct (names_part_rel (t, y, i, c)) as (ns & n & Hn & ->). simpl in *.
  apply andb_true_iff. split.
  - rewrite forallb_forall. intros m Hm%list_elem_of_In.
    rewrite Hn in Hvis. apply Forall_app in Hvis as [Hns Hn'].
    rewrite Forall_singleton in Hn'.
    rewrite !elem_of_app in Hm. destruct Hm as [Hm|[Hm|Hm]].
    + rewrite Hn in Hm. apply elem_of_app in Hm as [Hm|Hm].
      * by apply (proj1 (Forall_forall _ _) Hns).
      * apply list_elem_of_singleton in Hm. by subst.
    + by apply (proj1 (Forall_forall _ _) Hns).
    + apply elem_of_cons in Hm as [->|Hm]; [by apply visible_name_app|].
      apply list_elem_of_singleton in Hm. by subst.
  - rewrite !app_assoc.
    change [n +:+ "_" +:+ pretty y; part_name i]
      with ([n +:+ "_" +:+ pretty y] ++ [part_name i]).
    rewrite !app_assoc, last_snoc_default.
    unfold part_name. rewrite <- app_assoc_s. apply endswith_app.
Qed.

(** No directory on the way to the file of a partition does. *)
Lemma part_dir_no_glob x d :
  x ∈ bronze_parts tech_dt →
  d ∈ dirs_between (resolve cwd PRICE_DATA) (part_node cwd PRICE_DATA x) →
  glob_match (resolve cwd PRICE_DATA) d = false.
Proof.
  intros Hx Hd. destruct x as [[[t y] i] c].
  destruct (bronze_parts_plain _ _ _ _ Hx) as [Ht Hnp].
  unfold dirs_between in Hd.
  apply list_elem_of_fmap in Hd as (j & -> & Hj). apply elem_of_seq in Hj.
  unfold glob_match. apply andb_false_iff. right.
  rewrite part_node_under in * by (by apply plain_symbol_canonical).
  destruct (names_part_rel (t, y, i, c)) as (ns & n & Hn & Hrel).
  simpl in *. rewrite Hrel in *. clear Hrel.
  set (r := resolve cwd PRICE_DATA) in *.
  set (dirs := names t ++ ns ++ [n +:+ "_" +:+ pretty y]).
  assert (r ++ names t ++ ns ++ [n +:+ "_" +:+ pretty y; part_name i]
          = (r ++ dirs) ++ [part_name i]) as E.
  { unfold dirs. by rewrite <- !app_assoc. }
  rewrite E in *. rewrite length_app in Hj. simpl in Hj.
  rewrite take_app_le by lia.
  assert (length r < j ≤ length (r ++ dirs)) as Hj' by lia.
  rewrite length_app in Hj'.
  rewrite take_app_ge by lia.
  destruct (dirs !! (j - length r - 1)) as [m|] eqn:Hm.
  2:{ apply lookup_ge_None in Hm. lia. }
  assert (take (j - length r) dirs = take (j - length r - 1) dirs ++ [m]) as ->.
  { replace (j - length r) with (S (j - length r - 1)) at 1 by lia.
    by erewrite take_S_r. }
  rewrite app_assoc, last_snoc_default.
  apply list_elem_of_lookup_2 in Hm. unfold dirs in Hm.
  rewrite !elem_of_app in Hm. destruct Hm as [Hm|[Hm|Hm]].
  - by apply (proj1 (Forall_forall _ _) Hnp).
  - apply (proj1 (Forall_forall _ _) Hnp). rewrite Hn.
    apply elem_of_app. by left.
  - apply list_elem_of_singleton in Hm. subst m. apply year_dir_not_parquet.
Qed.

(** After a run, the files below the root are the files of the
    partitions. *)
Lemma files_below_root fs :
  filter (λ k, below (resolve cwd PRICE_DATA) k = true)
    (map_to_list (exec_ops cwd (bronze_ingestion PRICE_DATA tech_dt) fs)).*1
  ≡ₚ part_node cwd PRICE_DATA <$> bronze_parts tech_dt.
Proof.
  apply NoDup_Permutation.
  - apply NoDup_filter, NoDup_fst_map_to_list.
  - apply NoDup_fmap_2_strong; [|apply NoDup_bronze_parts].
    intros x y. apply part_node_inj_parts, plain_canonical_tickers.
  - intros k. rewrite list_elem_of_filter. split.
    + intros [Hk ([q c] & -> & Hqc)%list_elem_of_fmap]. cbn [fst] in *.
      apply elem_of_map_to_list in Hqc.
      apply bronze_lookup_below in Hqc as (x & Hx & -> & _); [|done..].
      apply list_elem_of_fmap. eauto.
    + intros (x & -> & Hx)%list_elem_of_fmap. split.
      * apply part_node_below.
        by eapply (bronze_parts_canonical _ plain_canonical_tickers).
      * apply list_elem_of_fmap.
        exists (part_node cwd PRICE_DATA x, x.2). split; [done|].
        apply elem_of_map_to_list.
        apply bronze_lookup_part; [apply plain_canonical_tickers|done].
Qed.

(** The files [glob] finds after a run are the files of the partitions. *)
Lemma parquet_files_perm fs :
  parquet_files cwd PRICE_DATA
    (exec_ops cwd (bronze_ingestion PRICE_DATA tech_dt) fs)
  ≡ₚ part_file PRICE_DATA <$> bronze_parts tech_dt.
Proof.
  unfold parquet_files.
  set (r := resolve cwd PRICE_DATA).
  set (files := filter (λ k, below r k = true) _).
  pose proof (files_below_root fs) as Hfiles. fold r files in Hfiles.
  assert (∀ k, k ∈ files → ∃ x, x ∈ bronze_parts tech_dt ∧
                                k = part_node cwd PRICE_DATA x) as Hpart.
  { intros k Hk. rewrite Hfiles in Hk.
    apply list_elem_of_fmap in Hk as (x & -> & Hx). eauto. }
  rewrite filter_app.
  rewrite (filter_all _ files).
  2:{ apply Forall_forall. intros k (x & Hx & ->)%Hpart.
      by apply part_node_glob. }
  rewrite (filter_none _ (remove_dups _)).
  2:{ apply Forall_forall. intros d Hd. rewrite elem_of_remove_dups in Hd.
      apply list_elem_of_bind in Hd as (k & Hd & (x & Hx & ->)%Hpart).
      unfold r. by rewrite (part_dir_no_glob x d Hx Hd). }
  rewrite app_nil_r, Hfiles, <- list_fmap_compose.
  erewrite list_fmap_ext; [done|]. intros _ x Hx%list_elem_of_lookup_2. simpl.
  assert (canonical x.1.1.1) as Hcan
    by (by eapply (bronze_parts_canonical _ plain_canonical_tickers)).
  rewrite part_node_under, drop_app_length, join_names_names by done.
  by rewrite part_file_rel.
Qed.

End ReadBack.

Lemma bind_assoc_l {B C D : Type} (f : B → list C) (g : C → list D) (l : list B) :
  (l ≫= f) ≫= g = l ≫= (λ x, f x ≫= g).
Proof.
  induction l as [|x l IH]; [done|]. by rewrite !bind_cons, bind_app, IH.
Qed.

Lemma bind_perm_ext {B C : Type} (f g : B → list C) (l : list B) :
  (∀ x, x ∈ l → f x ≡ₚ g x) → l ≫= f ≡ₚ l ≫= g.
Proof.
  induction l as [|x l IH]; intros Hfg; [done|].
  rewrite !bind_cons. apply Permutation_app.
  - apply Hfg. by left.
  - apply IH. intros y Hy. apply Hfg. by right.
Qed.

Lemma fmap_bind_comm {B C D : Type} (h : C → D) (f : B → list C) (l : list B) :
  h <$> (l ≫= f) = l ≫= (λ x, h <$> f x).
Proof.
  induction l as [|x l IH]; [done|]. by rewrite !bind_cons, fmap_app, IH.
Qed.

Lemma imap_bind_snd {K B : Type} (g : nat → list B → K * list B)
    (l : list (list B)) :
  (∀ i c, (g i c).2 = c) → imap g l ≫= (λ x, x.2) = mjoin l.
Proof.
  revert g. induction l as [|c l IH]; intros g Hg; [done|].
  rewrite imap_cons, bind_cons, Hg. cbn [mjoin list_join]. f_equal.
  apply IH. intros i c'. apply Hg.
Qed.

(** The rows of all the partitions written are the rows of the frame. *)
Lemma bronze_parts_rows_perm (tech_dt : list PxRow) :
  (x ← bronze_parts tech_dt; x.2) ≡ₚ assign_Year <$> tech_dt.
Proof.
  unfold bronze_parts. rewrite bind_assoc_l.
  etrans; [apply bind_perm_ext; intros t _|].
  { rewrite bind_assoc_l.
    etrans; [apply bind_perm_ext; intros y _|].
    { rewrite (imap_bind_snd (λ i c, (t, y, i, c))) by done.
      apply join_from_pandas_2. }
    apply (group_by_perm Year); [apply NoDup_unique|].
    intros r Hr. apply elem_of_unique, list_elem_of_fmap. eauto. }
  unfold ticker_dt. rewrite <- fmap_bind_comm. f_equiv.
  apply (group_by_perm Ticker); [apply NoDup_unique|].
  intros r Hr. apply elem_of_unique, list_elem_of_fmap. eauto.
Qed.

Lemma Ticker_leb_total (a b : YrRow) :
  Ticker_leb a b = true ∨ Ticker_leb b a = true.
Proof. apply String.leb_total. Qed.

(** *** The order in which the files are read *)

Lemma string_compare_refl (s : string) : String.compare s s = Eq.
Proof. by apply OrderedTypeEx.String_as_OT.cmp_eq. Qed.

Lemma string_compare_lt_trans (a b c : string) :
  String.compare a b = Lt → String.compare b c = Lt → String.compare a c = Lt.
Proof.
  intros H1 H2. apply OrderedTypeEx.String_as_OT.cmp_lt.
  apply OrderedTypeEx.String_as_OT.cmp_lt in H1, H2.
  by eapply OrderedTypeEx.String_as_OT.lt_trans.
Qed.

Lemma token_compare_refl (a : token) : token_compare a a = Eq.
Proof.
  destruct a; simpl; [apply string_compare_refl | apply N.compare_refl].
Qed.

Lemma token_compare_eq (a b : token) : token_compare a b = Eq → a = b.
Proof.
  destruct a, b; simpl; try done.
  - intros ->%String.compare_eq_iff. done.
  - intros ->%N.compare_eq. done.
Qed.

Lemma token_compare_antisym (a b : token) :
  token_compare b a = CompOpp (token_compare a b).
Proof.
  destruct a, b; simpl; try done.
  - apply String.compare_antisym.
  - apply N.compare_antisym.
Qed.

Lemma token_compare_lt_trans (a b c : token) :
  token_compare a b = Lt → token_compare b c = Lt → token_compare a c = Lt.
Proof.
  destruct a, b, c; simpl; try done.
  - apply string_compare_lt_trans.
  - rewrite !N.compare_lt_iff. lia.
Qed.

Lemma key_compare_refl (k : list token) : key_compare k k = Eq.
Proof.
  induction k as [|a k IH]; simpl; [done|]. by rewrite token_compare_refl.
Qed.

Lemma key_compare_eq (k1 k2 : list token) : key_compare k1 k2 = Eq → k1 = k2.
Proof.
  revert k2. induction k1 as [|a k1 IH]; intros [|b k2]; simpl; try done.
  destruct (token_compare a b) eqn:Hab; try done.
  apply token_compare_eq in Hab as ->. by intros ->%IH.
Qed.

Lemma key_compare_antisym (k1 k2 : list token) :
  key_compare k2 k1 = CompOpp (key_compare k1 k2).
Proof.
  revert k2. induction k1 as [|a k1 IH]; intros [|b k2]; simpl; try done.
  rewrite (token_compare_antisym a b).
  destruct (token_compare a b); simpl; [apply IH|done..].
Qed.

Lemma key_compare_lt_trans (k1 k2 k3 : list token) :
  key_compare k1 k2 = Lt → key_compare k2 k3 = Lt → key_compare k1 k3 = Lt.
Proof.
  revert k2 k3. induction k1 as [|a k1 IH]; intros [|b k2] [|c k3]; simpl;
    try done.
  destruct (token_compare a b) eqn:Hab, (token_compare b c) eqn:Hbc; try done.
  - apply token_compare_eq in Hab as ->. rewrite Hbc. apply IH.
  - apply token_compare_eq in Hab as ->. by rewrite Hbc.
  - apply token_compare_eq in Hbc as <-. by rewrite Hab.
  - by rewrite (token_compare_lt_trans a b c).
Qed.

Lemma natural_leb_total (p q : string) :
  natural_leb p q = true ∨ natural_leb q p = true.
Proof.
  unfold natural_leb.
  rewrite (key_compare_antisym (natural_sort_key p) (natural_sort_key q)).
  destruct (key_compare _ _); simpl; auto.
Qed.

Lemma natural_leb_trans (p q r : string) :
  natural_leb p q = true → natural_leb q r = true → natural_leb p r = true.
Proof.
  unfold natural_leb.
  destruct (key_compare (natural_sort_key p) (natural_sort_key q)) eqn:Hpq;
    [| |done].
  - apply key_compare_eq in Hpq as ->. done.
  - destruct (key_compare (natural_sort_key q) (natural_sort_key r)) eqn:Hqr;
      [| |done]; intros _ _.
    + apply key_compare_eq in Hqr as <-. by rewrite Hpq.
    + by rewrite (key_compare_lt_trans _ _ _ Hpq Hqr).
Qed.

(** *** The sort key of the file of a partition *)

Lemma is_nat_pretty_N_char (d : N) :
  (d < 10)%N → Ascii.is_nat (pretty_N_char d) = Some (N.to_nat d).
Proof.
  intros Hd.
  assert (d = 0 ∨ d = 1 ∨ d = 2 ∨ d = 3 ∨ d = 4 ∨ d = 5 ∨ d = 6 ∨ d = 7
          ∨ d = 8 ∨ d = 9)%N as Hcases by lia.
  repeat (destruct Hcases as [->|Hcases]; [done|]). by subst.
Qed.

Lemma tokens_digits_digit (c : ascii) (d : nat) (s : string) (n : N) :
  Ascii.is_nat c = Some d →
  tokens_digits (String c s) n = tokens_digits s (10 * n + N.of_nat d).
Proof. intros H. cbn [tokens_digits]. by rewrite H. Qed.

Lemma tokens_text_digit (c : ascii) (d : nat) (s acc : string) :
  Ascii.is_nat c = Some d →
  tokens_text (String c s) acc = TStr acc :: tokens_digits (String c s) 0.
Proof.
  intros H. cbn [tokens_text tokens_digits]. by rewrite H.
Qed.

Lemma pretty_N_go_app (x : N) (s r : string) :
  pretty_N_go x s +:+ r = pretty_N_go x (s +:+ r).
Proof.
  revert s. induction (N.lt_wf_0 x) as [x _ IH]; intros s.
  destruct (decide (x = 0)%N) as [->|].
  - by rewrite !pretty_N_go_0.
  - rewrite (pretty_N_go_step x s), (pretty_N_go_step x (s +:+ r)) by lia.
    rewrite IH by (apply N.div_lt; lia). by rewrite app_cons_s.
Qed.

(** Reading the digits of [x] after [n] gives [n] shifted, plus [x]. *)
Lemma tokens_digits_pretty_go (x : N) :
  ∃ k : N, ∀ s n,
    tokens_digits (pretty_N_go x s) n = tokens_digits s (n * k + x).
Proof.
  induction (N.lt_wf_0 x) as [x _ IH].
  destruct (decide (x = 0)%N) as [->|Hx].
  - exists 1%N. intros s n. rewrite pretty_N_go_0. f_equal. lia.
  - destruct (IH (x `div` 10)%N) as [k Hk]; [apply N.div_lt; lia|].
    exists (10 * k)%N. intros s n.
    rewrite pretty_N_go_step, Hk by lia.
    rewrite (tokens_digits_digit _ (N.to_nat (x `mod` 10)))
      by (apply is_nat_pretty_N_char, N.mod_lt; lia).
    f_equal. rewrite N2Nat.id. pose proof (N.div_mod x 10). lia.
Qed.

Lemma tokens_text_pretty_go (x : N) (s acc : string) :
  (0 < x)%N →
  tokens_text (pretty_N_go x s) acc
    = TStr acc :: tokens_digits (pretty_N_go x s) 0.
Proof.
  revert s. induction (N.lt_wf_0 x) as [x _ IH]; intros s Hx.
  rewrite pretty_N_go_step by done.
  destruct (decide (x `div` 10 = 0)%N) as [->|].
  - rewrite pretty_N_go_0.
    apply (tokens_text_digit _ (N.to_nat (x `mod` 10))).
    apply is_nat_pretty_N_char, N.mod_lt. lia.
  - apply IH; [apply N.div_lt; lia | by apply N.neq_0_lt_0].
Qed.

Lemma tokens_text_pretty (x : N) (r acc : string) :
  tokens_text (pretty x +:+ r) acc = TStr acc :: tokens_digits r x.
Proof.
  unfold pretty, pretty_N. case_decide as Hx.
  - subst x. change ("0" +:+ r) with (String "0" r).
    rewrite (tokens_text_digit _ 0) by done.
    by rewrite (tokens_digits_digit _ 0) by done.
  - rewrite pretty_N_go_app, app_nil_l_s.
    rewrite tokens_text_pretty_go by lia.
    destruct (tokens_digits_pretty_go x) as [k Hk]. rewrite Hk.
    do 2 f_equal.
Qed.

(** Scanning a prefix that ends in an underscore leaves the scanner in
    text, whatever it was doing before. *)
Lemma tokens_prefix (Q : string) :
  (∀ acc, ∃ pre acc', ∀ rest,
     tokens_text (Q +:+ String "_" rest) acc = pre ++ tokens_text rest acc') ∧
  (∀ n, ∃ pre acc', ∀ rest,
     tokens_digits (Q +:+ String "_" rest) n = pre ++ tokens_text rest acc').
Proof.
  induction Q as [|c Q [IHt IHd]].
  - split.
    + intros acc. by exists [], (acc +:+ "_").
    + intros n. by exists [TInt n], "_".
  - split.
    + intros acc. destruct (Ascii.is_nat c) as [d|] eqn:Hc.
      * destruct (IHd (N.of_nat d)) as (pre & acc' & H).
        exists (TStr acc :: pre), acc'. intros rest.
        rewrite app_cons_s. cbn [tokens_text]. by rewrite Hc, H.
      * destruct (IHt (acc +:+ String c "")) as (pre & acc' & H).
        exists pre, acc'. intros rest.
        rewrite app_cons_s. cbn [tokens_text]. by rewrite Hc, H.
    + intros n. destruct (Ascii.is_nat c) as [d|] eqn:Hc.
      * destruct (IHd (10 * n + N.of_nat d)%N) as (pre & acc' & H).
        exists pre, acc'. intros rest.
        rewrite app_cons_s. cbn [tokens_digits]. by rewrite Hc, H.
      * destruct (IHt (String c "")) as (pre & acc' & H).
        exists (TInt n :: pre), acc'. intros rest.
        rewrite app_cons_s. cbn [tokens_digits]. by rewrite Hc, H.
Qed.

Lemma pretty_Z_nonneg (y : Z) : (0 ≤ y)%Z → pretty y = pretty (Z.to_N y).
Proof. destruct y; [done|done|lia]. Qed.

Lemma tokens_part_name (i : nat) (n : N) :
  tokens_digits (String "/" (part_name i)) n
    = [TInt n; TStr "/part."; TInt (N.of_nat i); TStr ".parquet"].
Proof.
  unfold part_name.
  change ("part." +:+ pretty i +:+ ".parquet")
    with (String "p" (String "a" (String "r" (String "t" (String "."
            (pretty (N.of_nat i) +:+ ".parquet")))))).
  cbn [tokens_digits tokens_text Ascii.is_nat]. f_equal.
  change (((((String "/" "" +:+ String "p" "") +:+ String "a" "")
              +:+ String "r" "") +:+ String "t" "") +:+ String "." "")
    with "/part.".
  by rewrite tokens_text_pretty.
Qed.

(** The key of the file of a partition: what comes before the year, then
    the year, then the number of the file. *)
Lemma part_file_key (root t : string) :
  plain_symbol t →
  ∃ pre acc, ∀ (y : Z) (i : nat), (0 ≤ y)%Z →
    natural_sort_key (part_path (yr_path root t y) i)
      = pre ++ [TStr acc; TInt (Z.to_N y); TStr "/part."; TInt (N.of_nat i);
                TStr ".parquet"].
Proof.
  intros Ht.
  destruct (tokens_prefix (dir_prefix root +:+ t +:+ "/" +:+ t))
    as [Htext _].
  destruct (Htext "") as (pre & acc & H).
  exists pre, acc. intros y i Hy.
  unfold natural_sort_key, part_path. rewrite yr_path_plain by done.
  rewrite !app_assoc_s.
  change ("_" +:+ pretty y +:+ "/" +:+ part_name i)
    with (String "_" (pretty y +:+ String "/" (part_name i))).
  rewrite <- (app_assoc_s t "/"), <- (app_assoc_s (dir_prefix root)).
  rewrite <- (app_assoc_s (dir_prefix root +:+ t +:+ "/") t).
  rewrite (app_assoc_s (dir_prefix root) (t +:+ "/") t).
  rewrite (app_assoc_s t "/" t).
  rewrite H, pretty_Z_nonneg, tokens_text_pretty by done.
  by rewrite tokens_part_name.
Qed.

Lemma key_compare_app (pre k1 k2 : list token) :
  key_compare (pre ++ k1) (pre ++ k2) = key_compare k1 k2.
Proof.
  induction pre as [|a pre IH]; simpl; [done|]. by rewrite token_compare_refl.
Qed.

(** Among the files of one symbol the natural order is the order of the
    years and, within a year, of the numbers of the files. *)
Lemma part_file_leb (root t : string) (y1 y2 : Z) (i1 i2 : nat) :
  plain_symbol t → (0 ≤ y1)%Z → (0 ≤ y2)%Z →
  natural_leb (part_path (yr_path root t y1) i1)
              (part_path (yr_path root t y2) i2) = true →
  (y1 < y2)%Z ∨ (y1 = y2 ∧ i1 ≤ i2).
Proof.
  intros Ht Hy1 Hy2. unfold natural_leb.
  destruct (part_file_key root t Ht) as (pre & acc & Hkey).
  rewrite !Hkey, key_compare_app by done. simpl.
  rewrite string_compare_refl.
  destruct (N.compare_spec (Z.to_N y1) (Z.to_N y2)) as [Hy|Hy|Hy].
  - assert (y1 = y2) as -> by lia.
    destruct (N.compare_spec (N.of_nat i1) (N.of_nat i2)); [| |done];
      intros _; right; split; try done; lia.
  - intros _. left. lia.
  - done.
Qed.

(** *** Stable sorting and sorting by two keys *)

Section Stable.
Context {A K : Type} `{EqDecision K} (key : A → K) (leb : A → A → bool).
Hypothesis leb_same_key : ∀ x y, key x = key y → leb x y = true.

Lemma filter_insert_sorted (k : K) (x : A) (l : list A) :
  filter (λ z, key z = k) (insert_sorted leb x l)
    = filter (λ z, key z = k) (x :: l).
Proof.
  induction l as [|y l IH]; [done|]. cbn [insert_sorted].
  destruct (leb x y) eqn:Hxy; [done|].
  assert (key x ≠ key y) as Hne.
  { intros Heq. by rewrite (leb_same_key x y Heq) in Hxy. }
  rewrite (filter_cons _ y), IH, !(filter_cons _ x), (filter_cons _ y).
  destruct (decide (key x = k)), (decide (key y = k)); try done. congruence.
Qed.

(** The sort keeps the rows of one key in the order they had. *)
Lemma filter_isort (k : K) (l : list A) :
  filter (λ z, key z = k) (isort leb l) = filter (λ z, key z = k) l.
Proof.
  induction l as [|x l IH]; [done|]. cbn [isort foldr].
  fold (isort leb l). by rewrite filter_insert_sorted, !filter_cons, IH.
Qed.

(** A list sorted by key whose rows of each key are sorted by [R2] is
    sorted by any relation that holds between rows in key order that are
    in [R2] order when their keys are the same. *)
Lemma Sorted_two_keys (R1 R2 R : relation A) (l : list A) :
  (∀ a b, R1 a b → (key a = key b → R2 a b) → R a b) →
  Sorted R1 l → (∀ k, Sorted R2 (filter (λ z, key z = k) l)) → Sorted R l.
Proof.
  intros HR. induction 1 as [|a l Hs IH Hhd]; intros Hk; [constructor|].
  constructor.
  - apply IH. intros k. specialize (Hk k). rewrite filter_cons in Hk.
    case_decide; [by apply Sorted_inv in Hk as [? _] | done].
  - destruct Hhd as [|b l Hab]; constructor.
    apply HR; [done|]. intros Heq. specialize (Hk (key a)).
    rewrite !filter_cons, decide_True, decide_True in Hk by done.
    apply Sorted_inv in Hk as [_ Hhd]. by apply HdRel_inv in Hhd.
Qed.

End Stable.

Lemma filter_bind_comm {B C : Type} (P : C → Prop) `{∀ x, Decision (P x)}
    (f : B → list C) (l : list B) :
  filter P (l ≫= f) = l ≫= (λ x, filter P (f x)).
Proof.
  induction l as [|x l IH]; [done|]. by rewrite !bind_cons, filter_app, IH.
Qed.

Lemma StronglySorted_bind {B C : Type} (Rk : relation B) (R : relation C)
    (g : B → list C) (l : list B) :
  StronglySorted Rk l →
  (∀ p, p ∈ l → StronglySorted R (g p)) →
  (∀ p q a b, Rk p q → p ∈ l → q ∈ l → a ∈ g p → b ∈ g q → R a b) →
  StronglySorted R (l ≫= g).
Proof.
  intros Hl Hin Hcross. induction Hl as [|p l Hl IH Hp]; [constructor|].
  rewrite bind_cons. apply StronglySorted_app_2.
  - intros a b Ha (q & Hb & Hq)%list_elem_of_bind.
    apply (Hcross p q); [|by left|by right|done..].
    by apply (proj1 (Forall_forall _ _) Hp).
  - apply Hin. by left.
  - apply IH.
    + intros q Hq. apply Hin. by right.
    + intros q q' a b HR Hq Hq'. apply Hcross; [done|by right..].
Qed.

Lemma StronglySorted_weaken {B : Type} (R1 R2 : relation B) (l : list B) :
  (∀ a b, a ∈ l → b ∈ l → R1 a b → R2 a b) →
  StronglySorted R1 l → StronglySorted R2 l.
Proof.
  intros HR Hl. induction Hl as [|a l Hl IH Ha]; [constructor|].
  constructor.
  - apply IH. intros x y Hx Hy. apply HR; by right.
  - apply Forall_forall. intros b Hb. apply HR; [by left|by right|].
    by apply (proj1 (Forall_forall _ _) Ha).
Qed.

Lemma StronglySorted_filter {B : Type} (R : relation B) (P : B → Prop)
    `{∀ x, Decision (P x)} (l : list B) :
  StronglySorted R l → StronglySorted R (filter P l).
Proof.
  induction 1 as [|a l Hl IH Ha]; [constructor|].
  rewrite filter_cons. case_decide; [|done]. constructor; [done|].
  apply Forall_forall. intros b [_ Hb]%list_elem_of_filter.
  by apply (proj1 (Forall_forall _ _) Ha).
Qed.

Lemma StronglySorted_distinct {B : Type} (R : relation B) (l : list B) :
  StronglySorted R l → NoDup l → StronglySorted (λ a b, R a b ∧ a ≠ b) l.
Proof.
  induction 1 as [|a l Hl IH Ha]; intros Hnd; [constructor|].
  apply NoDup_cons in Hnd as [Hnotin Hnd]. constructor; [by apply IH|].
  apply Forall_forall. intros b Hb. split.
  - by apply (proj1 (Forall_forall _ _) Ha).
  - by intros ->.
Qed.

Lemma StronglySorted_join {B : Type} (R : relation B) (ls : list (list B)) :
  StronglySorted R (mjoin ls) →
  (∀ i c, ls !! i = Some c → StronglySorted R c) ∧
  (∀ i j c c' a b, i < j → ls !! i = Some c → ls !! j = Some c' →
                   a ∈ c → b ∈ c' → R a b).
Proof.
  induction ls as [|c0 ls IH]; intros Hs.
  - split; intros; by rewrite lookup_nil in *.
  - cbn [mjoin list_join] in Hs. apply StronglySorted_app in Hs as (Hx & Hc0 & Hls).
    destruct (IH Hls) as [IH1 IH2]. split.
    + intros [|i] c Hc; simplify_eq/=; [done|by eapply IH1].
    + intros [|i] [|j] c c' a b Hij Hc Hc' Ha Hb; simplify_eq/=; try lia.
      * apply Hx; [done|]. apply list_elem_of_join. exists c'. split; [done|].
        by eapply list_elem_of_lookup_2.
      * eapply (IH2 i j); [lia|done..].
Qed.

(** *** The rows of a symbol, as they are read *)

Lemma join_from_pandas_2_eq (df : list YrRow) :
  mjoin (from_pandas_2 df) = isort index_leb df.
Proof.
  unfold from_pandas_2.
  set (s := isort index_leb df). set (k := (length s + 1) / 2).
  rewrite <- (take_drop k s) at 3.
  rewrite !filter_cons, filter_nil.
  repeat case_decide; simpl; rewrite ?app_nil_r; try done.
  - destruct (drop k s); [by rewrite app_nil_r | by exfalso; auto].
  - destruct (take k s); [done | by exfalso; auto].
  - destruct (take k s), (drop k s); try done; by exfalso; auto.
Qed.

Lemma index_leb_total (a b : YrRow) : index_leb a b = true ∨ index_leb b a = true.
Proof. unfold index_leb. rewrite !Nat.leb_le. lia. Qed.

Lemma from_pandas_2_sorted (df : list YrRow) :
  StronglySorted (λ a b, index (px a) ≤ index (px b)) (mjoin (from_pandas_2 df)).
Proof.
  rewrite join_from_pandas_2_eq.
  apply (StronglySorted_weaken (λ a b, index_leb a b = true)).
  { intros a b _ _. unfold index_leb. by rewrite Nat.leb_le. }
  apply Sorted.Sorted_StronglySorted.
  - intros a b c. unfold index_leb. rewrite !Nat.leb_le. lia.
  - apply (isort_sorted index_leb index_leb_total).
Qed.

Lemma date_leb_year (a b : Timestamp) :
  (year a < year b)%Z → date_leb a b = true.
Proof.
  intros H. unfold date_leb, Timestamp_compare.
  by rewrite (proj2 (Z.compare_lt_iff _ _) H).
Qed.

Lemma mapM_default {B C : Type} (f : B → option (list C)) (l : list B) :
  (∀ x, x ∈ l → is_Some (f x)) →
  mjoin <$> mapM f l = Some (x ← l; default [] (f x)).
Proof.
  induction l as [|x l IH]; intros Hl; [done|].
  destruct (Hl x) as [c Hc]; [by left|].
  assert (∀ y, y ∈ l → is_Some (f y)) as Hl' by (intros y Hy; apply Hl; by right).
  specialize (IH Hl'). rewrite bind_cons, Hc. cbn [mapM default].
  rewrite Hc. destruct (mapM f l) as [k|]; [|done].
  injection IH as <-. done.
Qed.

(** Reading files that are all there gives their rows, file after file in
    the order of the sort keys. *)
Lemma read_parquet_files {B : Type} (cwd : list string) (fs : store (list B))
    (files : list string) :
  files ≠ [] → (∀ p, p ∈ files → is_Some (fs !! resolve cwd p)) →
  read_parquet cwd fs files
  = Some (p ← isort natural_leb files; default [] (fs !! resolve cwd p)).
Proof.
  intros Hne Hall. unfold read_parquet. destruct files as [|p files]; [done|].
  apply mapM_default. intros q Hq. apply Hall. by rewrite elem_of_isort in Hq.
Qed.

Section ReadOrder.
Variable cwd : list string.
Variable PRICE_DATA : string.
Variable tech_dt : list PxRow.
Variable fs : store (list YrRow).
Hypothesis root_not_empty : PRICE_DATA ≠ "".
Hypothesis plain_tickers : Forall (λ r, plain_symbol (Ticker r)) tech_dt.
Hypothesis no_parquet_tickers :
  Forall (λ r, no_parquet_name (Ticker r)) tech_dt.
Hypothesis index_order : index_follows_dates tech_dt.
Hypothesis years_nonneg : Forall (λ r, (0 ≤ year (Date r))%Z) tech_dt.

Let fs' := exec_ops cwd (bronze_ingestion PRICE_DATA tech_dt) fs.
Let by_date (a b : YrRow) : Prop := date_leb (Date (px a)) (Date (px b)) = true.

(** A file that is read is the file of a partition, and holds its rows. *)
Lemma read_file_part (p : string) :
  p ∈ isort natural_leb (parquet_files cwd PRICE_DATA fs') →
  ∃ x, x ∈ bronze_parts tech_dt ∧ p = part_file PRICE_DATA x ∧
       fs' !! resolve cwd p = Some x.2.
Proof.
  unfold fs'. rewrite elem_of_isort.
  rewrite (parquet_files_perm cwd PRICE_DATA tech_dt root_not_empty
             plain_tickers no_parquet_tickers fs).
  intros (x & -> & Hx)%list_elem_of_fmap. exists x. split; [done|].
  split; [done|].
  apply (bronze_lookup_part cwd PRICE_DATA tech_dt); [|done].
  by apply plain_canonical_tickers.
Qed.

Lemma part_row_in_frame t y i c (r : YrRow) :
  (t, y, i, c) ∈ bronze_parts tech_dt → r ∈ c →
  px r ∈ tech_dt ∧ Ticker (px r) = t ∧ year (Date (px r)) = y ∧ (0 ≤ y)%Z.
Proof.
  intros Hx Hr.
  destruct (bronze_parts_rows tech_dt t y i c r Hx Hr) as (Hin & Ht & _ & Hy).
  apply list_elem_of_fmap in Hin as (r0 & -> & Hr0). simpl in *.
  split; [done|]. split; [done|]. split; [done|]. subst y.
  by apply (proj1 (Forall_forall _ _) years_nonneg).
Qed.

(** The rows of a partition are in date order. *)
Lemma part_rows_by_date x :
  x ∈ bronze_parts tech_dt → StronglySorted by_date x.2.
Proof.
  destruct x as [[[t y] i] c]. intros Hx. simpl.
  pose proof Hx as (_ & _ & Hc)%elem_of_bronze_parts.
  destruct (StronglySorted_join _ _ (from_pandas_2_sorted
    (filter (λ r, Year r = y) (ticker_dt tech_dt t)))) as [Hin _].
  eapply StronglySorted_weaken; [|by eapply Hin].
  intros a b Ha Hb Hab.
  destruct (part_row_in_frame t y i c a Hx Ha) as (? & ? & _).
  destruct (part_row_in_frame t y i c b Hx Hb) as (? & ? & _).
  apply index_order; [done|done|congruence|done].
Qed.

(** The rows of one symbol, in the order the files are read, are in date
    order. *)
Lemma ticker_rows_by_date (t : string) :
  StronglySorted by_date
    (filter (λ r, Ticker (px r) = t)
       (p ← isort natural_leb (parquet_files cwd PRICE_DATA fs');
        default [] (fs' !! resolve cwd p))).
Proof.
  rewrite filter_bind_comm.
  apply (StronglySorted_bind (λ p q, natural_leb p q = true ∧ p ≠ q)).
  - apply StronglySorted_distinct.
    + apply Sorted.Sorted_StronglySorted.
      * intros p q r. apply natural_leb_trans.
      * apply (isort_sorted natural_leb natural_leb_total).
    + rewrite isort_perm. unfold fs'.
      rewrite (parquet_files_perm cwd PRICE_DATA tech_dt root_not_empty
                 plain_tickers no_parquet_tickers fs).
      apply NoDup_fmap_2_strong; [|apply NoDup_bronze_parts].
      intros x y. by apply (part_file_inj PRICE_DATA tech_dt).
  - intros p (x & Hx & -> & ->)%read_file_part. simpl.
    by apply StronglySorted_filter, part_rows_by_date.
  - intros p q a b [Hleb Hne]
      (x & Hx & -> & Hcx)%read_file_part (x' & Hx' & -> & Hcx')%read_file_part.
    rewrite Hcx, Hcx'. simpl.
    intros [Hta Ha]%list_elem_of_filter [Htb Hb]%list_elem_of_filter.
    destruct x as [[[t1 y1] i1] c1], x' as [[[t2 y2] i2] c2]. simpl in *.
    destruct (part_row_in_frame _ _ _ _ a Hx Ha) as (Hina & Ht1 & Hy1 & Hy1').
    destruct (part_row_in_frame _ _ _ _ b Hx' Hb) as (Hinb & Ht2 & Hy2 & Hy2').
    assert (t1 = t) as -> by congruence. assert (t2 = t) as -> by congruence.
    unfold part_file in Hleb, Hne. simpl in Hleb, Hne.
    apply part_file_leb in Hleb as [Hlt|[-> Hle]];
      [| |by eapply proj1, (bronze_parts_plain tech_dt)|done..].
    + apply date_leb_year. lia.
    + assert (i1 < i2) as Hlt.
      { destruct (decide (i1 = i2)) as [->|]; [done|lia]. }
      apply elem_of_bronze_parts in Hx as (_ & _ & Hc1).
      apply elem_of_bronze_parts in Hx' as (_ & _ & Hc2).
      destruct (StronglySorted_join _ _ (from_pandas_2_sorted
        (filter (λ r, Year r = y2) (ticker_dt tech_dt t)))) as [_ Hcross].
      apply index_order; [done|done|congruence|].
      by eapply (Hcross i1 i2).
Qed.

End ReadOrder.

Lemma date_leb_refl (a : Timestamp) : date_leb a a = true.
Proof. unfold date_leb, Timestamp_compare. by rewrite !Z.compare_refl. Qed.

Lemma StronglySorted_all {B : Type} (R : relation B) (l : list B) :
  (∀ a b, a ∈ l → b ∈ l → R a b) → StronglySorted R l.
Proof.
  induction l as [|a l IH]; intros HR; constructor.
  - apply IH. intros x y Hx Hy. apply HR; by right.
  - apply Forall_forall. intros b Hb. apply HR; [by left|by right].
Qed.

Lemma StronglySorted_lookup {B : Type} (R : relation B) (l : list B)
    (i j : nat) (x y : B) :
  StronglySorted R l → i < j → l !! i = Some x → l !! j = Some y → R x y.
Proof.
  intros Hl. revert i j. induction Hl as [|a l Hl IH Ha]; intros i j Hij Hi Hj.
  - by rewrite lookup_nil in Hi.
  - destruct j as [|j]; [lia|]. destruct i as [|i]; simplify_eq/=.
    + apply (proj1 (Forall_forall _ _) Ha). by eapply list_elem_of_lookup_2.
    + apply (IH i j); [lia|done..].
Qed.

(** The frame of cell 17 meets [index_follows_dates] when the dates of the
    response ascend: the labels come from the order of the response. *)
Lemma tech_dt_index_follows_dates (raw : WideFrame) :
  dates_ascend raw → index_follows_dates (tech_dt raw).
Proof.
  intros Hasc.
  assert (StronglySorted
            (λ x y : Timestamp * string * Quote, date_leb x.1.1 y.1.1 = true)
            (stack raw)) as Hstack.
  { unfold stack. eapply StronglySorted_bind; [exact Hasc| |].
    - intros r _. apply StronglySorted_all.
      intros a b (? & -> & _)%list_elem_of_fmap (? & -> & _)%list_elem_of_fmap.
      apply date_leb_refl.
    - intros p q a b Hpq _ _
        (? & -> & _)%list_elem_of_fmap (? & -> & _)%list_elem_of_fmap.
      exact Hpq. }
  intros a b Ha Hb _ Hidx. unfold tech_dt, sort_values in Ha, Hb.
  rewrite elem_of_isort in Ha, Hb. unfold reset_index in Ha, Hb.
  apply list_elem_of_lookup in Ha as [i Hi], Hb as [j Hj].
  rewrite list_lookup_imap in Hi, Hj.
  destruct (stack raw !! i) as [x|] eqn:Hx; [|done].
  destruct (stack raw !! j) as [y|] eqn:Hy; [|done].
  simplify_eq/=. destruct (decide (i = j)) as [->|].
  - simplify_eq. apply date_leb_refl.
  - apply (StronglySorted_lookup _ _ i j x y Hstack); [lia|done..].
Qed.

Lemma string_leb_refl (a : string) : String.leb a a = true.
Proof. unfold String.leb. by rewrite string_compare_refl. Qed.

(** The load after a run: it succeeds, and reads the files of the
    partitions, whose rows are the rows of the frame. *)
Lemma dd_px_after_run (cwd : list string) (PRICE_DATA : string)
    (tech_dt : list PxRow) (fs : store (list YrRow)) :
  PRICE_DATA ≠ "" → tech_dt ≠ [] →
  Forall (λ r, plain_symbol (Ticker r)) tech_dt →
  Forall (λ r, no_parquet_name (Ticker r)) tech_dt →
  let fs' := exec_ops cwd (bronze_ingestion PRICE_DATA tech_dt) fs in
  let rows := p ← isort natural_leb (parquet_files cwd PRICE_DATA fs');
              default [] (fs' !! resolve cwd p) in
  dd_px cwd PRICE_DATA fs' = Some (set_index_Ticker rows) ∧
  rows ≡ₚ assign_Year <$> tech_dt.
Proof.
  intros Hroot Hne Hplain Hnp fs' rows.
  pose proof (parquet_files_perm cwd PRICE_DATA tech_dt Hroot Hplain Hnp fs)
    as Hfiles.
  fold fs' in Hfiles.
  assert (∀ x, x ∈ bronze_parts tech_dt →
            fs' !! resolve cwd (part_file PRICE_DATA x) = Some x.2) as Hlook.
  { intros x Hx.
    apply (bronze_lookup_part cwd PRICE_DATA tech_dt); [|done].
    by apply plain_canonical_tickers. }
  assert (rows ≡ₚ assign_Year <$> tech_dt) as Hrows.
  { unfold rows. rewrite isort_perm, Hfiles, list_fmap_bind.
    rewrite <- (bronze_parts_rows_perm tech_dt).
    erewrite bind_ext_in; [done|]. intros x Hx. cbn [compose].
    by rewrite Hlook. }
  split; [|done]. unfold dd_px. rewrite read_parquet_files; [done| |].
  - intros E. unfold rows in Hrows. rewrite E in Hrows. simpl in Hrows.
    apply Permutation_nil in Hrows.
    by apply fmap_nil_inv in Hrows.
  - intros p Hp. rewrite Hfiles in Hp.
    apply list_elem_of_fmap in Hp as (x & -> & Hx). rewrite Hlook; done.
Qed.


Lemma synthetic_index_follows_dates : index_follows_dates synthetic_dt.
Proof.
  intros a b Ha Hb _ Hidx. unfold synthetic_dt in Ha, Hb.
  repeat (apply elem_of_cons in Ha as [->|Ha]);
    try (by apply elem_of_nil in Ha);
    repeat (apply elem_of_cons in Hb as [->|Hb]);
    try (by apply elem_of_nil in Hb);
    first [reflexivity | simpl in Hidx; lia].
Qed.

Lemma synthetic_plain : Forall (λ r, plain_symbol (Ticker r)) synthetic_dt.
Proof. repeat constructor. Qed.

Lemma synthetic_no_parquet :
  Forall (λ r, no_parquet_name (Ticker r)) synthetic_dt.
Proof. repeat constructor. Qed.



(** ** C2: the lagged close, in date order *)

Lemma StronglySorted_fmap_inv {B C : Type} (f : B → C) (R : relation C)
    (l : list B) :
  StronglySorted R (f <$> l) → StronglySorted (λ a b, R (f a) (f b)) l.
Proof.
  induction l as [|x l IH]; [constructor|]. rewrite fmap_cons.
  intros [Hl Hx]%StronglySorted_inv. constructor; [by apply IH|].
  by rewrite Forall_fmap in Hx.
Qed.

Lemma filter_fmap_assign_Year (t : string) (l : list PxRow) :
  filter (λ r, Ticker (px r) = t) (assign_Year <$> l)
  = assign_Year <$> filter (λ r, Ticker r = t) l.
Proof.
  induction l as [|r l IH]; [done|].
  rewrite fmap_cons, !filter_cons. cbn [px assign_Year].
  destruct (decide (Ticker r = t)); [rewrite fmap_cons|]; by rewrite IH.
Qed.




(** * Further properties of the cells *)

(** ** Cell 20: the size of a directory *)

Lemma DirEntry_nested_ind (P : DirEntry → Prop) :
  (∀ name st_size, P (EFile name st_size)) →
  (∀ name it, Forall P it → P (EDir name it)) →
  (∀ name, P (EOther name)) →
  ∀ entry, P entry.
Proof.
  intros Hfile Hdir Hother. fix IH 1. intros [name sz|name it|name].
  - apply Hfile.
  - apply Hdir. induction it as [|e it IHit]; constructor;
      [apply IH | exact IHit].
  - apply Hother.
Qed.

Lemma foldl_scan_entry (total : N) (it : list DirEntry) :
  foldl scan_entry total it = (total + get_dir_size it)%N.
Proof.
  unfold get_dir_size. revert total.
  induction it as [|e it IH] using rev_ind; intros total; simpl; [lia|].
  rewrite !foldl_snoc, IH. destruct e; simpl; lia.
Qed.

Lemma get_dir_size_cons (entry : DirEntry) (it : list DirEntry) :
  get_dir_size (entry :: it) = (scan_entry 0 entry + get_dir_size it)%N.
Proof. unfold get_dir_size at 1. simpl. apply foldl_scan_entry. Qed.

Lemma sum_app (l l' : list N) :
  foldr N.add 0%N (l ++ l') = (foldr N.add 0 l + foldr N.add 0 l')%N.
Proof. induction l as [|x l IH]; simpl; lia. Qed.

Lemma scan_entry_files (entry : DirEntry) :
  scan_entry 0 entry = foldr N.add 0%N (entry_files entry).
Proof.
  induction entry as [name sz|name it IH|name] using DirEntry_nested_ind;
    simpl; [lia| |done].
  rewrite N.add_0_l. fold (get_dir_size it).
  induction IH as [|e it He _ IHit]; [done|].
  rewrite get_dir_size_cons, bind_cons, sum_app. by rewrite He, IHit.
Qed.


(** X2.  The size [get_dir_size] returns does not depend on the order in
    which [os.scandir] yields the entries, at any level of the tree. *)
Theorem get_dir_size_same_tree (it it' : list DirEntry) :
  same_tree it it' → get_dir_size it = get_dir_size it'.
Proof.
  induction 1 as [|e l l' _ IH|name it it' l l' _ IHit _ IHl|e e' l
                 |l1 l2 l3 _ IH1 _ IH2].
  - done.
  - by rewrite !get_dir_size_cons, IH.
  - rewrite !get_dir_size_cons. simpl.
    fold (get_dir_size it) (get_dir_size it'). by rewrite IHit, IHl.
  - rewrite !get_dir_size_cons. lia.
  - by rewrite IH1.
Qed.

Lemma get_dir_size_same_tree_witness :
  let a := [EFile "part.0.parquet" 10;
            EDir "sub" [EFile "x" 1; EOther "s"; EFile "y" 2]] in
  let b := [EDir "sub" [EFile "y" 2; EFile "x" 1; EOther "s"];
            EFile "part.0.parquet" 10] in
  same_tree a b ∧ get_dir_size a = 13%N ∧ get_dir_size b = 13%N.
Proof.
  intros a b.
  assert (same_tree a b) as H.
  { unfold a, b. eapply same_tree_trans; [apply same_tree_swap|].
    apply same_tree_dir; [|apply same_tree_skip, same_tree_nil].
    eapply same_tree_trans; [apply same_tree_skip, same_tree_swap|].
    apply same_tree_swap. }
  split; [exact H|]. split; [reflexivity|].
  rewrite <- (get_dir_size_same_tree a b H). reflexivity.
Defined.

(** ** Cells 11 to 14: the tickers asked for *)

Lemma select_mask_filter {A : Type} (P : A → bool) (frame : list A) :
  select_mask frame (P <$> frame) = filter (λ x, P x = true) frame.
Proof.
  unfold select_mask. induction frame as [|x frame IH]; [done|].
  rewrite fmap_cons. change (zip (x :: frame) (P x :: (P <$> frame)))
    with ((x, P x) :: zip frame (P <$> frame)).
  rewrite !filter_cons. cbn [snd].
  destruct (decide (P x = true)); [rewrite fmap_cons|]; by rewrite IH.
Qed.

Lemma tech_sector_filter (tickers : list TickerRow) :
  tech_sector tickers =
  filter (λ r, GICS_Sector r = Some "Information Technology") tickers.
Proof.
  unfold tech_sector, idx_tech. rewrite select_mask_filter.
  apply list_filter_iff. intros r. apply bool_decide_eq_true.
Qed.

(** X3.  The request of cell 14 asks for the tickers of the rows whose
    sector is Information Technology and for no other: a symbol is asked for
    exactly when one of its rows has that sector (a row with another sector,
    or with none, does not count), and the symbols come in the order of the
    file, one for each selected row. *)
Theorem tech_request_tickers (tickers : list TickerRow) :
  (∀ t, t ∈ req_tickers (tech_request (tech_tickers tickers)) ↔
        ∃ r, r ∈ tickers ∧ ticker r = t ∧
             GICS_Sector r = Some "Information Technology") ∧
  sublist (req_tickers (tech_request (tech_tickers tickers)))
          (ticker <$> tickers) ∧
  length (tech_tickers tickers) =
    length (filter (λ r, GICS_Sector r = Some "Information Technology") tickers).
Proof.
  cbn [tech_request req_tickers]. unfold tech_tickers.
  rewrite tech_sector_filter. split; [|split].
  - intros t. rewrite list_elem_of_fmap. split.
    + intros (r & -> & [? ?]%list_elem_of_filter). eauto.
    + intros (r & ? & <- & ?). exists r. split; [done|].
      by apply list_elem_of_filter.
  - apply fmap_sublist, sublist_filter.
  - by rewrite length_fmap.
Qed.

(** ** Cells 22 to 26: the two copies of the frame *)

Lemma stock_path_rel (temp : string) :
  stock_path temp = dir_prefix temp +:+ "stock_px.csv".
Proof.
  unfold stock_path, path_join, dir_prefix. cbn [foldl].
  rewrite join_step_rel by done. by rewrite app_assoc_s.
Qed.

Lemma parquet_path_rel (temp : string) :
  parquet_path temp = dir_prefix temp +:+ "stock_px.parquet".
Proof.
  unfold parquet_path, path_join, dir_prefix. cbn [foldl].
  rewrite join_step_rel by done. by rewrite app_assoc_s.
Qed.

Lemma resolve_stock_path (cwd : list string) (temp : string) :
  resolve cwd (stock_path temp) = resolve cwd temp ++ ["stock_px.csv"].
Proof.
  rewrite stock_path_rel. apply (resolve_under cwd temp "stock_px.csv").
  repeat constructor; discriminate.
Qed.

Lemma resolve_parquet_part (cwd : list string) (temp : string) (i : nat) :
  resolve cwd (part_path (parquet_path temp) i)
  = resolve cwd temp ++ ["stock_px.parquet"; part_name i].
Proof.
  unfold part_path. rewrite parquet_path_rel, app_assoc_s.
  change ("stock_px.parquet" +:+ "/" +:+ part_name i)
    with ("stock_px.parquet" +:+ String "/" (part_name i)).
  rewrite resolve_under.
  - rewrite names_app_sep, (names_nosep (part_name i)) by apply no_sep_part_name.
    done.
  - apply canonical_app_sep; [|apply part_name_canonical].
    repeat constructor; discriminate.
Qed.



(** ** Cell 17: the order and the labels of [tech_dt] *)

Lemma date_leb_spec (a b : Timestamp) :
  date_leb a b = true ↔
  (year a < year b ∨
   year a = year b ∧ (month a < month b ∨ month a = month b ∧ day a ≤ day b))%Z.
Proof.
  unfold date_leb, Timestamp_compare.
  destruct (Z.compare_spec (year a) (year b));
    destruct (Z.compare_spec (month a) (month b));
    destruct (Z.compare_spec (day a) (day b)); split; (done || lia).
Qed.

Lemma string_compare_gt_lt (a b : string) :
  String.compare a b = Gt → String.compare b a = Lt.
Proof. intros H. by rewrite String.compare_antisym, H. Qed.

Lemma ticker_date_leb_spec (a b : PxRow) :
  ticker_date_leb a b = true ↔
  String.compare (Ticker a) (Ticker b) = Lt ∨
  Ticker a = Ticker b ∧ date_leb (Date a) (Date b) = true.
Proof.
  unfold ticker_date_leb, date_leb.
  destruct (String.compare (Ticker a) (Ticker b)) eqn:Hc.
  - apply String.compare_eq_iff in Hc. split; [|intros [?|[_ ?]]; done].
    intros H. right. done.
  - split; [by left|done].
  - split; [done|]. intros [?|[Heq _]]; [done|].
    rewrite Heq, string_compare_refl in Hc. done.
Qed.

Lemma ticker_date_leb_total (a b : PxRow) :
  ticker_date_leb a b = true ∨ ticker_date_leb b a = true.
Proof.
  rewrite !ticker_date_leb_spec.
  destruct (String.compare (Ticker a) (Ticker b)) eqn:Hc.
  - apply String.compare_eq_iff in Hc.
    assert (date_leb (Date a) (Date b) = true ∨
            date_leb (Date b) (Date a) = true) as [?|?]
      by (rewrite !date_leb_spec; lia).
    + left; right. done.
    + right; right. done.
  - by left; left.
  - right; left. by apply string_compare_gt_lt.
Qed.

Lemma ticker_date_leb_trans (a b c : PxRow) :
  ticker_date_leb a b = true → ticker_date_leb b c = true →
  ticker_date_leb a c = true.
Proof.
  rewrite !ticker_date_leb_spec, !date_leb_spec.
  intros [Hab|[Hab Hd1]] [Hbc|[Hbc Hd2]].
  - left. by eapply string_compare_lt_trans.
  - left. by rewrite <- Hbc.
  - left. by rewrite Hab.
  - right. split; [congruence|lia].
Qed.

Lemma index_reset_index (l : list (Timestamp * string * Quote)) :
  index <$> reset_index l = seq 0 (length l).
Proof.
  unfold reset_index. apply list_eq. intros i.
  rewrite list_lookup_fmap, list_lookup_imap.
  destruct (l !! i) as [x|] eqn:Hx; simpl.
  - apply lookup_lt_Some in Hx. by rewrite lookup_seq_lt.
  - apply lookup_ge_None in Hx. by rewrite lookup_seq_ge.
Qed.

(** X5.  [tech_dt] is in ascending order of ticker and, within a ticker,
    of date: every row is before every row that follows it in that order.
    The sort keeps the labels [reset_index] gave: the label of a row of
    [tech_dt] is the position its date, ticker and quote have in the stacked
    frame, and the index of [tech_dt] holds each of 0, 1, ..., n-1 once, in
    the order the sort left them. *)
Theorem tech_dt_sorted (tech_raw_dt : WideFrame) :
  StronglySorted (λ a b, ticker_date_leb a b = true) (tech_dt tech_raw_dt) ∧
  (∀ r, r ∈ tech_dt tech_raw_dt →
        stack tech_raw_dt !! index r = Some (Date r, Ticker r, row_quote r)) ∧
  index <$> tech_dt tech_raw_dt ≡ₚ seq 0 (length (stack tech_raw_dt)).
Proof.
  unfold tech_dt, sort_values. split; [|split].
  - apply Sorted.Sorted_StronglySorted.
    + intros a b c. apply ticker_date_leb_trans.
    + apply (isort_sorted ticker_date_leb ticker_date_leb_total).
  - intros r Hr. rewrite elem_of_isort in Hr. unfold reset_index in Hr.
    apply list_elem_of_lookup in Hr as [i Hi].
    rewrite list_lookup_imap in Hi.
    destruct (stack tech_raw_dt !! i) as [[[d t] q]|] eqn:Hx; [|done].
    simpl in Hi. injection Hi as <-. simpl. rewrite Hx. by destruct q.
  - by rewrite isort_perm, index_reset_index.
Qed.

(** ** Cell 30: the partitions and the directory of a key *)

(** X6.  The frame of a key that the loop reaches is not empty and is
    written as one or two partitions, none of them empty: a single row is one
    partition, and [n >= 2] rows, taken in the order of their index labels,
    are the first [ceil(n/2)] in the first partition and the others in the
    second. *)
Theorem yr_dd_shape (tech_dt : list PxRow) (t : string) (y : Z) :
  y ∈ unique (Year <$> ticker_dt tech_dt t) →
  let rows := isort index_leb (filter (λ r, Year r = y) (ticker_dt tech_dt t)) in
  let k := (length rows + 1) / 2 in
  0 < length rows ∧
  yr_dd (ticker_dt tech_dt t) y =
    (if decide (length rows = 1) then [rows] else [take k rows; drop k rows]) ∧
  Forall (λ c, c ≠ []) (yr_dd (ticker_dt tech_dt t) y).
Proof.
  intros Hy rows k.
  assert (0 < length rows) as Hlen.
  { unfold rows. rewrite length_isort.
    apply elem_of_unique, list_elem_of_fmap in Hy as (r & -> & Hr).
    assert (r ∈ filter (λ r0, Year r0 = Year r) (ticker_dt tech_dt t)) as Hin
      by (by apply list_elem_of_filter).
    destruct (filter _ _); [by apply elem_of_nil in Hin | simpl; lia]. }
  assert (yr_dd (ticker_dt tech_dt t) y =
          filter (λ c, c ≠ []) [take k rows; drop k rows]) as Heq by done.
  clearbody rows. split; [done|]. split.
  - rewrite Heq. clear Heq. case_decide as H1.
    + assert (k = 1) as -> by (unfold k; by rewrite H1).
      by destruct rows as [|r [|r' rows']].
    + assert (0 < k < length rows) as Hk.
      { unfold k. split.
        - apply Nat.div_str_pos. lia.
        - apply Nat.Div0.div_lt_upper_bound. lia. }
      rewrite !filter_cons, filter_nil.
      rewrite decide_True, decide_True; [done| |].
      * intros Hd. apply (f_equal length) in Hd.
        rewrite length_drop in Hd. simpl in Hd. lia.
      * intros Hd. apply (f_equal length) in Hd.
        rewrite length_take in Hd. simpl in Hd. lia.
  - rewrite Heq. apply Forall_forall. by intros c [? _]%list_elem_of_filter.
Qed.

Lemma yr_dd_shape_witness :
  let rows := assign_Year <$> synthetic_dt in
  (2024%Z ∈ unique (Year <$> ticker_dt synthetic_dt "SYN")) ∧
  yr_dd (ticker_dt synthetic_dt "SYN") 2024 = [take 2 rows; drop 2 rows].
Proof.
  intros rows.
  assert (2024%Z ∈ unique (Year <$> ticker_dt synthetic_dt "SYN")) as H
    by (vm_compute; apply list_elem_of_here).
  split; [exact H|].
  destruct (yr_dd_shape synthetic_dt "SYN" 2024 H) as (_ & -> & _).
  reflexivity.
Defined.

Lemma inside_app root rest :
  root ≠ "" → inside root (dir_prefix root +:+ rest) = true.
Proof.
  intros Hroot. unfold inside. rewrite prefix_app_s, andb_true_r.
  by destruct (String.eqb_spec root "").
Qed.

Lemma rfind_head_nosep (b : string) :
  has_char "/" b = false → rfind_head b = "".
Proof.
  induction b as [|c b IH]; [done|]. cbn [has_char rfind_head].
  intros [Hc Hb]%orb_false_iff. rewrite (IH Hb). cbn [String.eqb negb].
  by rewrite Ascii.eqb_sym, Hc.
Qed.

Lemma rfind_head_app (a b : string) :
  has_char "/" b = false → rfind_head (a +:+ String "/" b) = a +:+ "/".
Proof.
  intros Hb. induction a as [|c a IH].
  - rewrite !app_nil_l_s. cbn [rfind_head]. rewrite (rfind_head_nosep b Hb).
    done.
  - rewrite !app_cons_s. cbn [rfind_head]. rewrite IH.
    destruct (a +:+ "/") eqn:E; [|done].
    by destruct a.
Qed.

Lemma rstrip_sep_snoc (a : string) : rstrip_sep (a +:+ "/") = rstrip_sep a.
Proof.
  induction a as [|c a IH]; [done|].
  rewrite app_cons_s. cbn [rstrip_sep]. by rewrite IH.
Qed.

Lemma rstrip_sep_id (a : string) :
  a ≠ "" → endswith_sep a = false → rstrip_sep a = a.
Proof.
  induction a as [|c a IH]; [done|]. intros _ H. cbn [rstrip_sep].
  destruct a as [|d a].
  - cbn [endswith_sep] in H. cbn [rstrip_sep String.eqb andb]. by rewrite H.
  - by rewrite IH; [|done|exact H].
Qed.

Lemma all_chars_sep_endswith (a : string) :
  a ≠ "" → all_chars (Ascii.eqb "/") a = true → endswith_sep a = true.
Proof.
  induction a as [|c a IH]; [done|]. intros _. cbn [all_chars].
  intros [Hc Ha]%andb_true_iff. destruct a as [|d a].
  - cbn [endswith_sep]. by rewrite Ascii.eqb_sym.
  - apply IH; done.
Qed.

(** [dirname] undoes the last step of a join with a name. *)
Lemma dirname_join_name (a b : string) :
  a ≠ "" → endswith_sep a = false → has_char "/" b = false →
  dirname (a +:+ String "/" b) = a.
Proof.
  intros Hne Hend Hb. unfold dirname. rewrite (rfind_head_app a b Hb).
  assert (all_chars (Ascii.eqb "/") (a +:+ "/") = false) as ->.
  { rewrite all_chars_app. apply andb_false_iff. left.
    destruct (all_chars (Ascii.eqb "/") a) eqn:E; [|done].
    by rewrite (all_chars_sep_endswith a Hne E) in Hend. }
  destruct (a +:+ "/") eqn:E; [by destruct a|].
  cbn [String.eqb negb andb]. rewrite <- E.
  by rewrite rstrip_sep_snoc, rstrip_sep_id.
Qed.

Lemma nosep_not_endswith_sep (t : string) :
  t ≠ "" → has_char "/" t = false → endswith_sep t = false.
Proof.
  intros Hne Ht. apply (visible_not_endswith_sep false); [|done].
  by apply all_visible_nosep.
Qed.

Lemma nosep_not_startswith_sep (t : string) :
  has_char "/" t = false → startswith_sep t = false.
Proof.
  destruct t as [|c t]; [done|]. cbn [has_char startswith_sep].
  intros [Hc _]%orb_false_iff. by rewrite Ascii.eqb_sym.
Qed.

(** X7.  For a ticker that is one non-empty name, the directory the loop
    makes before it writes the partition of a key is the directory of the
    ticker, [os.path.join(PRICE_DATA, ticker)], whatever the root; it is the
    parent of the directory of the partition, and every file of the
    partition lies below it. *)
Theorem makedirs_ticker_directory (PRICE_DATA t : string) (y : Z) (i : nat) :
  t ≠ "" → has_char "/" t = false →
  dirname (yr_path PRICE_DATA t y) = path_join PRICE_DATA [t] ∧
  yr_path PRICE_DATA t y =
    path_join PRICE_DATA [t] +:+ "/" +:+ t +:+ "_" +:+ pretty y ∧
  inside (dirname (yr_path PRICE_DATA t y))
         (part_path (yr_path PRICE_DATA t y) i) = true.
Proof.
  intros Hne Hsep.
  pose proof (nosep_not_startswith_sep t Hsep) as Hrel.
  pose proof (nosep_not_endswith_sep t Hne Hsep) as Hend.
  set (d := path_join PRICE_DATA [t]).
  assert (d = (PRICE_DATA +:+ glue PRICE_DATA) +:+ t) as Hd.
  { unfold d, path_join. cbn [foldl]. rewrite join_step_rel by done.
    by rewrite app_assoc_s. }
  assert (d ≠ "") as Hdne.
  { rewrite Hd. intros E. by apply app_eq_empty in E. }
  assert (endswith_sep d = false) as Hdend.
  { rewrite Hd. by rewrite endswith_sep_app. }
  assert (yr_path PRICE_DATA t y = d +:+ String "/" (t +:+ "_" +:+ pretty y))
    as Hyr.
  { unfold yr_path, path_join. cbn [foldl].
    change (join_step PRICE_DATA t) with d.
    rewrite join_step_rel by (by apply startswith_sep_app).
    unfold glue. rewrite Hdend, orb_false_r.
    destruct (String.eqb_spec d ""); [done|]. done. }
  assert (has_char "/" (t +:+ "_" +:+ pretty y) = false) as Hname.
  { rewrite !has_char_app, Hsep. simpl.
    by rewrite (all_chars_has_char digit_or_minus "/" (pretty y))
      by (apply pretty_Z_digits || done). }
  split; [|split].
  - rewrite Hyr. by apply dirname_join_name.
  - by rewrite Hyr.
  - rewrite Hyr, dirname_join_name by done. unfold part_path.
    rewrite app_assoc_s.
    replace (d +:+ String "/" (t +:+ "_" +:+ pretty y) +:+ "/" +:+ part_name i)
      with (dir_prefix d +:+ ((t +:+ "_" +:+ pretty y) +:+ "/" +:+ part_name i)).
    + by apply inside_app.
    + unfold dir_prefix, glue. rewrite Hdend, orb_false_r.
      destruct (String.eqb_spec d ""); [done|].
      rewrite !app_assoc_s. f_equal.
      by rewrite !app_cons_s, !app_nil_l_s, !app_assoc_s.
Qed.

Lemma makedirs_ticker_directory_witness :
  dirname (yr_path "../data/prices" "AAPL" 2020) = "../data/prices/AAPL".
Proof.
  destruct (makedirs_ticker_directory "../data/prices" "AAPL" 2020 0)
    as (-> & _); [discriminate|reflexivity|reflexivity].
Defined.

(** X8.  The location of the keys of a ticker that starts with the
    separator does not depend on the root: it is the ticker itself followed
    by an underscore and the year, under every root. *)
Theorem yr_path_absolute_ticker (PRICE_DATA t : string) (y : Z) :
  startswith_sep t = true →
  yr_path PRICE_DATA t y = t +:+ "_" +:+ pretty y ∧
  ∀ root, yr_path root t y = yr_path PRICE_DATA t y.
Proof.
  intros Ht.
  assert (∀ root, yr_path root t y = t +:+ "_" +:+ pretty y) as H.
  { intros root. unfold yr_path, path_join. cbn [foldl]. unfold join_step.
    rewrite Ht. destruct t as [|c t]; [done|].
    rewrite app_cons_s. cbn [startswith_sep] in *. by rewrite Ht. }
  split; [apply H|]. intros root. by rewrite !H.
Qed.

Lemma yr_path_absolute_ticker_witness :
  yr_path "../data/prices" "/tmp/x" 2020 = "/tmp/x_2020" ∧
  yr_path "elsewhere" "/tmp/x" 2020 = yr_path "../data/prices" "/tmp/x" 2020.
Proof.
  destruct (yr_path_absolute_ticker "../data/prices" "/tmp/x" 2020 eq_refl)
    as [H1 H2].
  split; [exact H1 | exact (H2 "elsewhere")].
Defined.

(** ** Cells 29 and 30: the store after a run *)





(** X12.  A run that is interrupted has already lost the previous store:
    for a non-empty root without [..] after a name, once the clean-up has
    returned, a file below the root is the file of one of the partitions of
    this run, whole or in part; before that, a file below the root is as it
    was or is gone. *)
Theorem bronze_ingestion_interrupted (cwd : list string) (PRICE_DATA : string)
    (tech_dt : list PxRow) (fs fs' : store (list YrRow)) (n : nat)
    (k : list string) :
  PRICE_DATA ≠ "" → dotdot_first (names PRICE_DATA) = true →
  stopped cwd (bronze_ingestion PRICE_DATA tech_dt) fs n fs' →
  below (resolve cwd PRICE_DATA) k = true →
  (n = 0 → fs' !! k = fs !! k ∨ fs' !! k = None) ∧
  (1 ≤ n → is_Some (fs' !! k) →
     ∃ x, x ∈ bronze_parts tech_dt ∧ k = part_node cwd PRICE_DATA x).
Proof.
  intros Hroot _ Hs Hk.
  assert (effect_on cwd k (Rmtree PRICE_DATA : fs_op (list YrRow))
          = Some None) as Hrm.
  { cbn [effect_on]. by rewrite decide_False, Hk. }
  destruct (stopped_lookup cwd _ _ _ _ k Hs) as [E|(op & Hop & Heff)].
  - split.
    + intros ->. by left.
    + intros Hn [c Hc]. rewrite E in Hc. destruct n as [|n]; [lia|].
      unfold bronze_ingestion in Hc. rewrite firstn_cons in Hc.
      rewrite lookup_after_cons, Hrm in Hc. cbn [default] in Hc.
      apply lookup_after_Some in Hc as [?|(op & Hop & Hv)]; [done|].
      apply subseteq_take, (effect_in_bronze_loop cwd) with (k := k) (v := Some c)
        in Hop as (x & Hx & -> & _); [eauto|done].
  - split.
    + intros ->. unfold bronze_ingestion in Hop. simplify_eq/=.
      rewrite Hrm in Heff. destruct Heff as [[_ ?]|[[? ?] _]]; [by right|done].
    + intros Hn _. destruct n as [|n]; [lia|].
      unfold bronze_ingestion in Hop. simpl in Hop.
      apply list_elem_of_lookup_2 in Hop.
      destruct Heff as [[Heff _]|[[v Heff] _]].
      * apply (effect_in_bronze_loop cwd) with (k := k) (v := None) in Hop
          as (x & _ & _ & ?); done.
      * destruct (effect_on cwd k op) as [w|] eqn:Hw; [|done].
        apply (effect_in_bronze_loop cwd) with (k := k) (v := w) in Hop
          as (x & Hx & -> & _); eauto.
Qed.

Lemma bronze_ingestion_interrupted_witness :
  let old := ["home"; "data"; "prices"; "SYN"; "SYN_2024"; "part.1.parquet"] in
  let fs : store (list YrRow) := {[ old := [] ]} in
  let fs' := exec_ops ["home"] [Rmtree "data/prices"] fs in
  stopped ["home"] (bronze_ingestion "data/prices" synthetic_dt) fs 1 fs' ∧
  (is_Some (fs' !! old) →
   ∃ x, x ∈ bronze_parts synthetic_dt ∧ old = part_node ["home"] "data/prices" x).
Proof.
  intros old fs fs'.
  assert (stopped ["home"] (bronze_ingestion "data/prices" synthetic_dt) fs 1 fs')
    as Hs by apply stopped_later, stopped_between.
  split; [exact Hs|].
  destruct (bronze_ingestion_interrupted ["home"] "data/prices" synthetic_dt
              fs fs' 1 old ltac:(discriminate) eq_refl Hs eq_refl) as [_ H].
  exact (H ltac:(lia)).
Defined.

Lemma written_paths_to_parquet (dir : string) (parts : list (list YrRow)) d :
  written_paths [Makedirs d; ToParquet dir parts]
  = imap (λ i _, part_path dir i) parts.
Proof.
  unfold written_paths. rewrite !bind_cons. cbn [app mbind list_bind].
  rewrite app_nil_r. apply list_eq. intros i.
  rewrite list_lookup_fmap, list_lookup_imap.
  destruct (parts !! i) as [c|] eqn:Hc; simpl.
  - apply lookup_lt_Some in Hc. by rewrite lookup_seq_lt.
  - apply lookup_ge_None in Hc. by rewrite lookup_seq_ge.
Qed.

Lemma fmap_imap_part_file (root t : string) (y : Z) (parts : list (list YrRow)) :
  part_file root <$> imap (λ i c, (t, y, i, c)) parts
  = imap (λ i _, part_path (yr_path root t y) i) parts.
Proof.
  apply list_eq. intros i. rewrite list_lookup_fmap, !list_lookup_imap.
  by destruct (parts !! i).
Qed.

Lemma written_paths_app {A} (ops1 ops2 : list (fs_op A)) :
  written_paths (ops1 ++ ops2) = written_paths ops1 ++ written_paths ops2.
Proof. unfold written_paths. by rewrite bind_app. Qed.

(** The writes of the loop are the files of the partitions, in order. *)
Lemma written_paths_bronze_loop (root : string) (tech_dt : list PxRow) :
  written_paths (bronze_loop root tech_dt)
  = part_file root <$> bronze_parts tech_dt.
Proof.
  unfold bronze_loop, bronze_parts, ingest_ticker, ingest_year.
  generalize (unique (Ticker <$> tech_dt)) as ts.
  induction ts as [|t ts IHt]; [done|].
  rewrite !bind_cons, written_paths_app, fmap_app, IHt. f_equal.
  generalize (unique (Year <$> ticker_dt tech_dt t)) as ys.
  induction ys as [|y ys IHy]; [done|].
  rewrite !bind_cons, fmap_app, <- IHy, fmap_imap_part_file.
  rewrite written_paths_app.
  by rewrite (written_paths_to_parquet (yr_path root t y)
                (yr_dd (ticker_dt tech_dt t) y) (dirname (yr_path root t y))).
Qed.

(** X13.  In one run no file is written twice: the paths of the writes of
    the loop are pairwise distinct, so a partition once written is not
    overwritten by a later step of the same run. *)
Theorem bronze_loop_writes_once (PRICE_DATA : string) (tech_dt : list PxRow) :
  PRICE_DATA ≠ "" →
  Forall (λ r, plain_symbol (Ticker r)) tech_dt →
  NoDup (written_paths (bronze_loop PRICE_DATA tech_dt)).
Proof.
  intros Hroot Hplain. rewrite written_paths_bronze_loop.
  apply NoDup_fmap_2_strong; [|by apply NoDup_bronze_parts].
  intros x x'. by apply part_file_inj.
Qed.

Lemma bronze_loop_writes_once_witness :
  NoDup (written_paths (bronze_loop "data/prices" synthetic_dt)).
Proof.
  apply (bronze_loop_writes_once "data/prices" synthetic_dt).
  - discriminate.
  - repeat constructor.
Defined.

(** ** Cell 34: the order in which the files are read *)

Lemma tokens_part_name_text (i : nat) (acc : string) :
  tokens_text (String "/" (part_name i)) acc
    = [TStr (acc +:+ "/part."); TInt (N.of_nat i); TStr ".parquet"].
Proof.
  unfold part_name.
  change ("part." +:+ pretty i +:+ ".parquet")
    with (String "p" (String "a" (String "r" (String "t" (String "."
            (pretty (N.of_nat i) +:+ ".parquet")))))).
  cbn [tokens_text Ascii.is_nat].
  rewrite tokens_text_pretty. cbn [tokens_digits tokens_text Ascii.is_nat].
  do 2 f_equal. by rewrite !app_assoc_s.
Qed.

(** The key of [part_path dir i]: what the directory gives, whatever it
    is, then the number of the file. *)
Lemma part_path_key (dir : string) :
  (∀ acc, ∃ pre last, ∀ i,
     tokens_text (dir +:+ String "/" (part_name i)) acc
       = pre ++ [TStr last; TInt (N.of_nat i); TStr ".parquet"]) ∧
  (∀ n, ∃ pre last, ∀ i,
     tokens_digits (dir +:+ String "/" (part_name i)) n
       = pre ++ [TStr last; TInt (N.of_nat i); TStr ".parquet"]).
Proof.
  induction dir as [|c dir [IHt IHd]].
  - split.
    + intros acc. exists [], (acc +:+ "/part."). intros i.
      by rewrite app_nil_l_s, tokens_part_name_text.
    + intros n. exists [TInt n], "/part.". intros i.
      by rewrite app_nil_l_s, tokens_part_name.
  - split.
    + intros acc. destruct (Ascii.is_nat c) as [d|] eqn:Hc.
      * destruct (IHd (N.of_nat d)) as (pre & last & H).
        exists (TStr acc :: pre), last. intros i.
        rewrite app_cons_s. cbn [tokens_text]. by rewrite Hc, H.
      * destruct (IHt (acc +:+ String c "")) as (pre & last & H).
        exists pre, last. intros i.
        rewrite app_cons_s. cbn [tokens_text]. by rewrite Hc, H.
    + intros n. destruct (Ascii.is_nat c) as [d|] eqn:Hc.
      * destruct (IHd (10 * n + N.of_nat d)%N) as (pre & last & H).
        exists pre, last. intros i.
        rewrite app_cons_s. cbn [tokens_digits]. by rewrite Hc, H.
      * destruct (IHt (String c "")) as (pre & last & H).
        exists (TInt n :: pre), last. intros i.
        rewrite app_cons_s. cbn [tokens_digits]. by rewrite Hc, H.
Qed.

(** Among the files of one dataset the natural order is the order of the
    numbers of the files. *)
Lemma part_path_leb (dir : string) (i j : nat) :
  natural_leb (part_path dir i) (part_path dir j) = true ↔ i ≤ j.
Proof.
  unfold natural_leb, natural_sort_key, part_path.
  destruct (part_path_key dir) as [Htext _].
  destruct (Htext "") as (pre & last & Hkey).
  change ("/" +:+ part_name i) with (String "/" (part_name i)).
  change ("/" +:+ part_name j) with (String "/" (part_name j)).
  rewrite !Hkey, key_compare_app. cbn [key_compare token_compare].
  rewrite string_compare_refl.
  destruct (N.compare_spec (N.of_nat i) (N.of_nat j)) as [H|H|H].
  - rewrite string_compare_refl. split; [lia|done].
  - split; [lia|done].
  - split; [done|lia].
Qed.

(** X15.  The files of one dataset are read in the order of their numbers,
    not of their names as text: [part.i.parquet] is not after
    [part.j.parquet] exactly when [i <= j], so [part.10.parquet] comes after
    [part.2.parquet], whatever the directory is called. *)
Theorem natural_leb_part_path (dir : string) (i j : nat) :
  (natural_leb (part_path dir i) (part_path dir j) = true ↔ i ≤ j) ∧
  natural_leb (part_path dir 2) (part_path dir 10) = true ∧
  natural_leb (part_path dir 10) (part_path dir 2) = false.
Proof.
  split; [apply part_path_leb|]. split.
  - apply part_path_leb. lia.
  - destruct (natural_leb (part_path dir 10) (part_path dir 2)) eqn:E; [|done].
    apply part_path_leb in E. lia.
Qed.

(** ** Cells 36 and 37: the rows of the transformed frame *)

Lemma string_leb_trans (a b c : string) :
  String.leb a b = true → String.leb b c = true → String.leb a c = true.
Proof.
  unfold String.leb.
  destruct (String.compare a b) eqn:Hab; [| |done]; intros _.
  - apply String.compare_eq_iff in Hab as ->. done.
  - destruct (String.compare b c) eqn:Hbc; [| |done]; intros _.
    + apply String.compare_eq_iff in Hbc as <-. by rewrite Hab.
    + by rewrite (string_compare_lt_trans a b c Hab Hbc).
Qed.

(** Splitting a list whose equal keys are adjacent by its distinct keys, in
    the order of their first appearance, and putting the groups together
    again gives the list back. *)
Lemma bind_groups_sorted {B K : Type} `{EqDecision K} (key : B → K)
    (R : relation K) (l : list B) :
  (∀ a b, R a b → R b a → a = b) →
  StronglySorted (λ a b, R (key a) (key b)) l →
  (k ← unique (key <$> l); filter (λ x, key x = k) l) = l.
Proof.
  intros Hanti. induction 1 as [|x l Hl IH Hx]; [done|].
  rewrite fmap_cons. cbn [unique]. rewrite bind_cons, filter_cons_True by done.
  cbn [app]. f_equal.
  rewrite (bind_ext_in _ (λ k, filter (λ z, key z = k) l)).
  2:{ intros k [Hk _]%list_elem_of_filter. by rewrite filter_cons_False. }
  destruct l as [|y l']; [done|].
  destruct (decide (key y = key x)) as [Heq|Hne].
  - rewrite <- Heq. rewrite fmap_cons in *. cbn [unique] in *.
    rewrite bind_cons in IH.
    rewrite (filter_cons_False (λ k, k ≠ key y)) by (intros H; by apply H).
    rewrite list_filter_filter_r by (by intros k H). exact IH.
  - assert (∀ z, z ∈ y :: l' → key z ≠ key x) as Hno.
    { intros z Hz Hzx. apply Hne.
      apply Forall_cons in Hx as [Hxy _].
      apply Hanti; [|done]. rewrite <- Hzx.
      apply elem_of_cons in Hz as [->|Hz]; [by rewrite Hzx|].
      apply StronglySorted_inv in Hl as [_ Hy].
      by apply (proj1 (Forall_forall _ _) Hy). }
    rewrite (filter_none (λ z, key z = key x))
      by (apply Forall_forall; exact Hno).
    cbn [app]. rewrite filter_all; [exact IH|].
    apply Forall_forall. intros k Hk.
    apply elem_of_unique, list_elem_of_fmap in Hk as (z & -> & Hz).
    by apply Hno.
Qed.

Lemma yrow_dd_shift_perm (frame : list YrRow) :
  yrow <$> dd_shift frame ≡ₚ frame.
Proof.
  unfold dd_shift. rewrite fmap_bind_comm.
  erewrite bind_ext_in; [|intros t _; apply yrow_assign_Close_lag_1].
  apply (group_by_perm (λ r, Ticker (px r))); [apply NoDup_unique|].
  intros r Hr. apply elem_of_unique, list_elem_of_fmap. eauto.
Qed.

Lemma yrow_dd_shift_sorted (frame : list YrRow) :
  Sorted (λ a b, String.leb (Ticker (px a)) (Ticker (px b)) = true) frame →
  yrow <$> dd_shift frame = frame.
Proof.
  intros Hs. unfold dd_shift. rewrite fmap_bind_comm.
  erewrite bind_ext_in; [|intros t _; apply yrow_assign_Close_lag_1].
  apply (bind_groups_sorted (λ r, Ticker (px r))
           (λ a b, String.leb a b = true)).
  - intros a b. apply String.leb_antisym.
  - apply Sorted.Sorted_StronglySorted; [|done].
    intros a b c. apply string_leb_trans.
Qed.

Lemma yrow_dd_rets (s : list ShiftRow) :
  (λ r, yrow (srow r)) <$> dd_rets s = yrow <$> s.
Proof. unfold dd_rets. by rewrite <- list_fmap_compose. Qed.

(** X16.  The transformation adds its two columns and keeps the rows: the
    rows of [dd_rets] are the rows of the frame read, each once, put
    together ticker by ticker; and when the frame read is sorted by ticker,
    as [dd_px] is, they are in the same order. *)
Theorem transform_keeps_rows (frame : list YrRow) :
  (λ r, yrow (srow r)) <$> dd_rets (dd_shift frame) ≡ₚ frame ∧
  (Sorted (λ a b, String.leb (Ticker (px a)) (Ticker (px b)) = true) frame →
   (λ r, yrow (srow r)) <$> dd_rets (dd_shift frame) = frame).
Proof.
  rewrite yrow_dd_rets.
  split; [apply yrow_dd_shift_perm | apply yrow_dd_shift_sorted].
Qed.

Lemma transform_keeps_rows_witness :
  (λ r, yrow (srow r)) <$> dd_rets (dd_shift (assign_Year <$> synthetic_dt))
  = assign_Year <$> synthetic_dt.
Proof.
  apply (proj2 (transform_keeps_rows (assign_Year <$> synthetic_dt))).
  repeat constructor.
Defined.

(** X17.  A row without a close has no return: when [Close] is null (NaN),
    [Returns] is null, whatever the lag is. *)
Theorem returns_missing_close (frame : list YrRow) (r : RetRow) :
  r ∈ dd_rets (dd_shift frame) →
  isna (Close (px (yrow (srow r)))) = true →
  isna (Returns r) = true.
Proof.
  unfold dd_rets. intros (s & -> & _)%list_elem_of_fmap.
  cbn [srow Returns assign_Returns].
  rewrite !isna_Prim2SF. intros Hc.
  rewrite sub_spec, div_spec, Hc. done.
Qed.

Lemma returns_missing_close_witness :
  let frame := [assign_Year (synthetic_row 0 "ZZZZ" (on_day 2024 1 2) nan)] in
  Forall (λ r, isna (Returns r) = true) (dd_rets (dd_shift frame)).
Proof.
  intros frame. apply Forall_forall. intros r Hr.
  apply (returns_missing_close frame r Hr).
  unfold frame in Hr. vm_compute in Hr.
  apply list_elem_of_singleton in Hr. subst r. reflexivity.
Defined.

(** ** Cells 17 to 37 together *)



(** ** Cell 43: what the save leaves alone, and reading the dataset back *)



(** The nodes of the files below the silver root after a save. *)
Lemma silver_nodes (cwd : list string) (FEATURES_DATA : string)
    (parts : list (list RetRow)) (fs : store (list RetRow)) :
  FEATURES_DATA ≠ "" →
  filter (λ k, below (resolve cwd FEATURES_DATA) k = true)
    (map_to_list (exec_ops cwd (silver_save FEATURES_DATA parts) fs)).*1
  ≡ₚ (λ i, resolve cwd FEATURES_DATA ++ [part_name i]) <$> seq 0 (length parts).
Proof.
  intros Hne. apply NoDup_Permutation.
  - apply NoDup_filter, NoDup_fst_map_to_list.
  - apply NoDup_fmap_2_strong; [|apply NoDup_seq].
    intros i j _ _ H%app_inv_head. apply part_name_inj.
    apply (f_equal (λ l, default "" (head l))) in H. exact H.
  - intros k. rewrite list_elem_of_filter. split.
    + intros [Hk ([q c] & -> & Hqc)%list_elem_of_fmap]. cbn [fst] in *.
      apply elem_of_map_to_list in Hqc.
      rewrite exec_ops_lookup in Hqc.
      rewrite <- (take_ge (silver_save FEATURES_DATA parts) 3) in Hqc by done.
      rewrite silver_save_after in Hqc by done. simpl in Hqc.
      apply part_store_lookup in Hqc as (i & Hi & ->).
      apply list_elem_of_fmap. exists i.
      split; [by apply resolve_part_path|].
      apply elem_of_seq. apply lookup_lt_Some in Hi. lia.
    + intros (i & -> & Hi)%list_elem_of_fmap. apply elem_of_seq in Hi.
      split; [by apply below_app|].
      destruct (lookup_lt_is_Some_2 parts i) as [c Hc]; [lia|].
      apply list_elem_of_fmap.
      exists (resolve cwd FEATURES_DATA ++ [part_name i], c).
      split; [done|]. apply elem_of_map_to_list.
      rewrite exec_ops_lookup.
      rewrite <- (take_ge (silver_save FEATURES_DATA parts) 3) by done.
      rewrite silver_save_after by (done || by apply below_app). simpl.
      rewrite <- resolve_part_path by done.
      by apply part_store_lookup_part.
Qed.

(** The files [glob] finds below the silver root after a save. *)
Lemma silver_files (cwd : list string) (FEATURES_DATA : string)
    (parts : list (list RetRow)) (fs : store (list RetRow)) :
  FEATURES_DATA ≠ "" → endswith_sep FEATURES_DATA = false →
  parquet_files cwd FEATURES_DATA
    (exec_ops cwd (silver_save FEATURES_DATA parts) fs)
  ≡ₚ part_path FEATURES_DATA <$> seq 0 (length parts).
Proof.
  intros Hne Hend. unfold parquet_files.
  set (r := resolve cwd FEATURES_DATA).
  set (files := filter (λ k, below r k = true) _).
  pose proof (silver_nodes cwd FEATURES_DATA parts fs Hne) as Hfiles.
  fold r files in Hfiles.
  assert (∀ k, k ∈ files → ∃ i, k = r ++ [part_name i]) as Hpart.
  { intros k Hk. rewrite Hfiles in Hk.
    apply list_elem_of_fmap in Hk as (i & -> & _). eauto. }
  assert (files ≫= dirs_between r = []) as ->.
  { clear Hfiles. induction files as [|k files IH]; [done|].
    rewrite bind_cons, IH by (intros k' Hk'; apply Hpart; by right).
    destruct (Hpart k) as [i ->]; [by left|].
    unfold dirs_between. rewrite length_app. simpl.
    by replace (length r + 1 - S (length r)) with 0 by lia. }
  cbn [remove_dups]. rewrite app_nil_r.
  rewrite (filter_all _ files).
  2:{ apply Forall_forall. intros k [i ->]%Hpart. unfold glob_match.
      rewrite drop_app_length, last_snoc. apply andb_true_iff.
      split; [done|]. cbn [default].
      unfold part_name. rewrite <- app_assoc_s. apply endswith_app. }
  rewrite Hfiles, <- list_fmap_compose.
  erewrite list_fmap_ext; [done|]. intros _ i _. simpl.
  rewrite drop_app_length. simpl. unfold part_path, dir_prefix, glue.
  rewrite Hend, orb_false_r. destruct (String.eqb_spec FEATURES_DATA ""); [done|].
  by rewrite app_assoc_s.
Qed.

Lemma Sorted_part_paths (dir : string) (a n : nat) :
  Sorted (λ p q, natural_leb p q = true) (part_path dir <$> seq a n).
Proof.
  revert a. induction n as [|n IH]; intros a; [constructor|].
  cbn [seq fmap list_fmap]. constructor; [apply IH|].
  destruct n as [|n]; constructor.
  apply part_path_leb. lia.
Qed.

#[local] Instance natural_leb_transitive :
  Transitive (λ p q, natural_leb p q = true).
Proof. intros p q r. apply natural_leb_trans. Qed.


